(** * glib-tutorial: the io_uring GSource of lesson 9 and the main-loop
      behaviour the lessons rely on.

    The development embeds [io_uring_gsource.c] (both revisions kept in the
    repository), the pieces of GLib and liburing it calls, and a small model
    of the kernel side of the rings.  Integers keep their C width: ring
    cursors are 32-bit unsigned and wrap, [gint] is 32-bit signed, pointers
    and [user_data] are 64-bit.  Effects are explicit: every function takes
    and returns the [state] it mutates, and whatever the program prints,
    frees or closes is appended to a log of events. *)

From Stdlib Require Import ZArith Lia Bool Sorting.Sorted Sorting.Permutation.
From stdpp Require Import base option list gmap.

Local Open Scope Z_scope.

(* ===================================================================== *)
(** ** GLib: integer types, pointer casts and constants *)
(* ===================================================================== *)

Module GLib.

(** [gboolean] values. *)
Definition TRUE : bool := true.
Definition FALSE : bool := false.
Definition G_SOURCE_CONTINUE : bool := TRUE.
Definition G_SOURCE_REMOVE : bool := FALSE.

(** [GIOCondition]: [G_IO_IN] is [POLLIN]. *)
Definition G_IO_IN : Z := 1.

(** Priorities printed by [priority_example.c]. *)
Definition G_PRIORITY_HIGH : Z := -100.
Definition G_PRIORITY_DEFAULT : Z := 0.
Definition G_PRIORITY_HIGH_IDLE : Z := 100.
Definition G_PRIORITY_DEFAULT_IDLE : Z := 200.
Definition G_PRIORITY_LOW : Z := 300.

(** A value reduced to a 32-bit signed [gint] (two's complement). *)
Definition to_gint (z : Z) : Z := (z + 2 ^ 31) mod 2 ^ 32 - 2 ^ 31.

(** A value reduced to a 32-bit [unsigned]. *)
Definition to_uint (z : Z) : Z := z mod 2 ^ 32.

(** A value reduced to 64 bits: a [gpointer], or a [__u64] user-data word. *)
Definition to_ptr (z : Z) : Z := z mod 2 ^ 64.

(** [#define GPOINTER_TO_INT(p) ((gint) (glong) (p))]: the low 32 bits of
    the pointer, read as a signed integer. *)
Definition GPOINTER_TO_INT (p : Z) : Z := to_gint p.

(** [#define GINT_TO_POINTER(i) ((gpointer) (glong) (i))]: the integer,
    sign-extended to the pointer width. *)
Definition GINT_TO_POINTER (i : Z) : Z := to_ptr i.

Definition NULL : Z := 0.

End GLib.

Import GLib.

(* ===================================================================== *)
(** ** liburing: ring layout and the inline helpers the program calls *)
(* ===================================================================== *)

Module Uring.

Definition IORING_OP_NOP : Z := 0.
Definition IORING_OP_CLOSE : Z := 19.
Definition IORING_OP_WRITE : Z := 23.
Definition IOSQE_IO_LINK : Z := 4.
Definition EBADF : Z := 9.
Definition ECANCELED : Z := 125.

(** A submission entry, with the fields the program sets. *)
Record io_uring_sqe := mk_sqe {
  opcode : Z;
  flags : Z;
  fd : Z;
  off : Z;
  addr : Z;
  len : Z;
  user_data : Z;
}.

(** A completion entry: the opaque word of the submission, and the signed
    result [res]. *)
Record io_uring_cqe := mk_cqe {
  cqe_user_data : Z;
  res : Z;
}.

Definition zero_sqe : io_uring_sqe := mk_sqe 0 0 0 0 0 0 0.
Definition zero_cqe : io_uring_cqe := mk_cqe 0 0.

(** The submission ring.  [sq_khead] is advanced by the kernel, [sq_ktail]
    by [io_uring_submit]; [sqe_head]/[sqe_tail] are liburing's private
    cursors. *)
Record io_uring_sq := mk_sq {
  sq_khead : Z;
  sq_ktail : Z;
  sqe_head : Z;
  sqe_tail : Z;
  sq_ring_mask : Z;
  sq_ring_entries : Z;
  sqes : list io_uring_sqe;
}.

(** The completion ring.  [cq_ktail] is advanced by the kernel, [cq_khead]
    by the application. *)
Record io_uring_cq := mk_cq {
  cq_khead : Z;
  cq_ktail : Z;
  cq_ring_mask : Z;
  cq_ring_entries : Z;
  cqes : list io_uring_cqe;
}.

Record io_uring := mk_ring {
  sq : io_uring_sq;
  cq : io_uring_cq;
  ring_fd : Z;
}.

(** The slot a cursor designates: [&ring[cursor & mask]]. *)
Definition slot (cursor mask : Z) : nat := Z.to_nat (Z.land cursor mask).

Definition cqe_at (q : io_uring_cq) (head : Z) : io_uring_cqe :=
  default zero_cqe (cqes q !! slot head (cq_ring_mask q)).

(** [io_uring_get_sqe]: the next free slot, or [None] for [NULL] when
    [next - head] exceeds the ring size. *)
Definition io_uring_get_sqe (s : io_uring_sq) : option nat * io_uring_sq :=
  let next := to_uint (sqe_tail s + 1) in
  let head := sq_khead s in
  if to_uint (next - head) <=? sq_ring_entries s then
    (Some (slot (sqe_tail s) (sq_ring_mask s)),
     mk_sq (sq_khead s) (sq_ktail s) (sqe_head s) next
           (sq_ring_mask s) (sq_ring_entries s) (sqes s))
  else (None, s).

(** Writing through the [sqe] pointer returned by [io_uring_get_sqe]. *)
Definition set_sqe (i : nat) (e : io_uring_sqe) (s : io_uring_sq) : io_uring_sq :=
  mk_sq (sq_khead s) (sq_ktail s) (sqe_head s) (sqe_tail s)
        (sq_ring_mask s) (sq_ring_entries s) (<[i := e]> (sqes s)).

Definition get_sqe_slot (i : nat) (s : io_uring_sq) : io_uring_sqe :=
  default zero_sqe (sqes s !! i).

(** [io_uring_prep_rw]: every field of the entry but [user_data].  The
    parameter [len] is an [unsigned]: a longer [size_t] count is cut to its
    low 32 bits on the way in. *)
Definition io_uring_prep_rw (op : Z) (e : io_uring_sqe)
    (fd_ addr_ len_ off_ : Z) : io_uring_sqe :=
  mk_sqe op 0 fd_ off_ addr_ (to_uint len_) (user_data e).

Definition io_uring_prep_write (e : io_uring_sqe) (fd_ buf nbytes offset : Z) :=
  io_uring_prep_rw IORING_OP_WRITE e fd_ buf nbytes offset.

Definition io_uring_prep_close (e : io_uring_sqe) (fd_ : Z) :=
  io_uring_prep_rw IORING_OP_CLOSE e fd_ NULL 0 0.

Definition io_uring_sqe_set_data (e : io_uring_sqe) (data : Z) : io_uring_sqe :=
  mk_sqe (opcode e) (flags e) (fd e) (off e) (addr e) (len e) (to_ptr data).

Definition sqe_or_flags (e : io_uring_sqe) (f : Z) : io_uring_sqe :=
  mk_sqe (opcode e) (Z.lor (flags e) f) (fd e) (off e) (addr e) (len e) (user_data e).

Definition io_uring_cqe_get_data (c : io_uring_cqe) : Z := cqe_user_data c.

(** [io_uring_cq_advance]: [if (nr) *khead += nr]. *)
Definition io_uring_cq_advance (q : io_uring_cq) (nr : Z) : io_uring_cq :=
  if nr =? 0 then q
  else mk_cq (to_uint (cq_khead q + nr)) (cq_ktail q)
             (cq_ring_mask q) (cq_ring_entries q) (cqes q).

(** [__io_uring_flush_sq]: publish the entries prepared so far and return
    how many the kernel has not consumed yet. *)
Definition io_uring_flush_sq (s : io_uring_sq) : Z * io_uring_sq :=
  let s' := if sqe_head s =? sqe_tail s then s
            else mk_sq (sq_khead s) (sqe_tail s) (sqe_tail s) (sqe_tail s)
                       (sq_ring_mask s) (sq_ring_entries s) (sqes s) in
  (to_uint (sqe_tail s - sq_khead s), s').

(** Number of completion entries the application has not consumed. *)
Definition io_uring_cq_ready (q : io_uring_cq) : Z :=
  to_uint (cq_ktail q - cq_khead q).

(** The [n] entries that follow the cursor [head], oldest first. *)
Definition cq_from (q : io_uring_cq) (head : Z) (n : nat) : list io_uring_cqe :=
  map (fun i => cqe_at q (to_uint (head + Z.of_nat i))) (seq 0 n).

(** The entries between the consumer and the producer cursor: what the
    kernel has posted and the application has not consumed. *)
Definition cq_visible (q : io_uring_cq) : list io_uring_cqe :=
  cq_from q (cq_khead q) (Z.to_nat (io_uring_cq_ready q)).

(** What [io_uring_queue_init_params(entries, ...)] leaves on success:
    empty rings of [entries] slots, completion ring twice as large. *)
Definition ring_init (entries : Z) (rfd : Z) : io_uring :=
  mk_ring (mk_sq 0 0 0 0 (entries - 1) entries
                 (replicate (Z.to_nat entries) zero_sqe))
          (mk_cq 0 0 (2 * entries - 1) (2 * entries)
                 (replicate (Z.to_nat (2 * entries)) zero_cqe))
          rfd.

(** Shape of a completion ring: a power-of-two number of slots below
    [2^31], cursors in range, at most [ring_entries] unconsumed. *)
Record cq_wf (q : io_uring_cq) : Prop := {
  cq_wf_pow : exists k, 0 <= k < 31 /\ cq_ring_entries q = 2 ^ k;
  cq_wf_mask : cq_ring_mask q = cq_ring_entries q - 1;
  cq_wf_len : length (cqes q) = Z.to_nat (cq_ring_entries q);
  cq_wf_head : 0 <= cq_khead q < 2 ^ 32;
  cq_wf_tail : 0 <= cq_ktail q < 2 ^ 32;
  cq_wf_ready : io_uring_cq_ready q <= cq_ring_entries q;
}.

End Uring.

Import Uring.

(* ===================================================================== *)
(** ** The process around the source: files, heap, kernel, output *)
(* ===================================================================== *)

(** Lines the program prints, by the place that prints them. *)
Inductive message :=
| MsgOpFailed (err : Z)          (* "[io_uring] Operation failed: %s" *)
| MsgOpCompleted (bytes : Z)     (* "[io_uring] Operation completed: %d bytes" *)
| MsgFinalizing                  (* "[Cleanup] Finalizing io_uring source" *)
| MsgInitFailed (err : Z)        (* "[Error] Failed to initialize io_uring: %s" *)
| MsgInitOk                      (* "[Init] io_uring initialized successfully" *)
| MsgOpenFailed                  (* "[Error] Failed to open file: %s" *)
| MsgOpening (fd : Z)            (* "[Submit] Opening file: %s (fd=%d)" *)
| MsgGetSqeFailed                (* "[Error] Failed to get SQE" *)
| MsgCloseFallback               (* "[Warning] Could not queue close operation, ..." *)
| MsgPrepared (len : Z)          (* "[Submit] Write operation prepared (%zu bytes)" *)
| MsgSubmitFailed (err : Z)      (* "[Error] Failed to submit: %s" *)
| MsgSubmitted (n : Z)           (* "[Submit] Submitted %d operation(s)" *)
| MsgCallback (n : Z)            (* "[Callback] Operation %d completed" *)
| MsgAllDone                     (* "[Callback] All operations completed, ..." *)
| MsgCreateFailed                (* "Failed to create io_uring source" *)
| MsgSubmitWriteFailed.          (* "Failed to submit write operation" *)

(** What the program does to the outside, in program order. *)
Inductive event :=
| EvPrint (m : message)
| EvPrintErr (m : message)
| EvFree (p : Z)
| EvClose (fd : Z)
| EvCqAdvance (nr : Z)
| EvQueueExit (rfd : Z)
| EvLoopQuit.

(** [CompletionState] of the revised [main]. *)
Record CompletionState := mk_completion {
  expected_completions : Z;
  completed_count : Z;
}.

Record world := mk_world {
  open_fds : gset Z;                 (* descriptors open in the process *)
  heap : gset Z;                     (* live blocks of the GLib allocator *)
  kernel : list io_uring_sqe;        (* entries the kernel took and has not completed *)
  sources : gmap nat nat;            (* live GSource objects, with reference counts *)
  completion_state : CompletionState;
  log : list event;
}.

Definition emit (e : event) (w : world) : world :=
  mk_world (open_fds w) (heap w) (kernel w) (sources w) (completion_state w)
           (log w ++ [e]).

Definition g_print (m : message) : world -> world := emit (EvPrint m).
Definition g_printerr (m : message) : world -> world := emit (EvPrintErr m).

Definition set_heap (h : gset Z) (w : world) : world :=
  mk_world (open_fds w) h (kernel w) (sources w) (completion_state w) (log w).

Definition set_open_fds (f : gset Z) (w : world) : world :=
  mk_world f (heap w) (kernel w) (sources w) (completion_state w) (log w).

Definition set_kernel (k : list io_uring_sqe) (w : world) : world :=
  mk_world (open_fds w) (heap w) k (sources w) (completion_state w) (log w).

Definition set_sources (m : gmap nat nat) (w : world) : world :=
  mk_world (open_fds w) (heap w) (kernel w) m (completion_state w) (log w).

Definition set_completion_state (c : CompletionState) (w : world) : world :=
  mk_world (open_fds w) (heap w) (kernel w) (sources w) c (log w).

(** [g_free(p)]: the block leaves the heap. *)
Definition g_free (p : Z) (w : world) : world :=
  emit (EvFree p) (set_heap (heap w ∖ {[p]}) w).

(** [g_strdup]: the allocator hands out the block [p]. *)
Definition g_strdup (p : Z) (w : world) : world :=
  set_heap ({[p]} ∪ heap w) w.

(** [close(fd)]. *)
Definition close (fd_ : Z) (w : world) : world :=
  emit (EvClose fd_) (set_open_fds (open_fds w ∖ {[fd_]}) w).

(** How many times a block was passed to [g_free]. *)
Definition is_free (p : Z) (e : event) : bool :=
  match e with
  | EvFree q => q =? p
  | _ => false
  end.

Definition free_count (p : Z) (l : list event) : nat :=
  length (List.filter (is_free p) l).

Record GPollFD := mk_pollfd {
  pfd_fd : Z;
  events : Z;
  revents : Z;
}.

(** [IoUringSource]: the [GSource] header (its identity), the ring and the
    poll record. *)
Record IoUringSource := mk_source {
  source : nat;
  ring : io_uring;
  poll_fd : GPollFD;
}.

Record state := mk_state {
  uring_source : IoUringSource;
  env : world;
}.

Definition set_ring (r : io_uring) (u : IoUringSource) : IoUringSource :=
  mk_source (source u) r (poll_fd u).

Definition set_cq (q : io_uring_cq) (u : IoUringSource) : IoUringSource :=
  set_ring (mk_ring (sq (ring u)) q (ring_fd (ring u))) u.

Definition set_sq (q : io_uring_sq) (u : IoUringSource) : IoUringSource :=
  set_ring (mk_ring q (cq (ring u)) (ring_fd (ring u))) u.

Definition set_revents (r : Z) (u : IoUringSource) : IoUringSource :=
  mk_source (source u) (ring u)
            (mk_pollfd (pfd_fd (poll_fd u)) (events (poll_fd u)) r).

(** [GSourceFunc]: the callback receives only the user data. *)
Definition GSourceFunc : Type := Z -> state -> bool * state.

(** The two revisions of [io_uring_gsource.c] in the repository. *)
Inductive revision := Original | Revised.

(* ===================================================================== *)
(** ** The GSource hooks of [io_uring_gsource.c] *)
(* ===================================================================== *)

(** [*timeout = -1; return FALSE;] *)
Definition io_uring_source_prepare (s : state) : (bool * Z) * state :=
  ((FALSE, -1), s).

(** [return (uring_source->poll_fd.revents & G_IO_IN) != 0;] *)
Definition io_uring_source_check (s : state) : bool * state :=
  (negb (Z.land (revents (poll_fd (uring_source s))) G_IO_IN =? 0), s).

(** The test that guards [g_free(op_data)] in the completion loop.
    Original: [if (op_data)].
    Revised:  [if (op_data && GPOINTER_TO_INT(op_data) > 1024)]. *)
Definition frees_payload (r : revision) (op_data : Z) : bool :=
  match r with
  | Original => negb (op_data =? NULL)
  | Revised => negb (op_data =? NULL) && (1024 <? GPOINTER_TO_INT op_data)
  end.

(** The line printed for one entry: the sign of [res] selects it. *)
Definition report_result (c : io_uring_cqe) : message :=
  if res c <? 0 then MsgOpFailed (to_gint (- res c))
  else MsgOpCompleted (res c).

(** Body of the [io_uring_for_each_cqe] loop for one entry. *)
Definition handle_cqe (r : revision) (c : io_uring_cqe) (w : world) : world :=
  let w1 := g_print (report_result c) w in
  let op_data := io_uring_cqe_get_data c in
  if frees_payload r op_data then g_free op_data w1 else w1.

(** [io_uring_for_each_cqe(&ring, head, cqe) { count++; ... }]:
    [for (head = *khead; head != *ktail; head++)].  [None] when the fuel
    runs out before the cursors meet. *)
Fixpoint for_each_cqe (fuel : nat) (r : revision) (q : io_uring_cq)
    (head count : Z) (w : world) : option (Z * world) :=
  if head =? cq_ktail q then Some (count, w)
  else match fuel with
       | O => None
       | S fuel' =>
           for_each_cqe fuel' r q (to_uint (head + 1)) (to_uint (count + 1))
                        (handle_cqe r (cqe_at q head) w)
       end.

(** The state in which the callback is called: the loop is over and the
    consumer cursor has been advanced. *)
Definition drain (r : revision) (s : state) : option state :=
  let u := uring_source s in
  let q := cq (ring u) in
  match for_each_cqe (Z.to_nat (io_uring_cq_ready q)) r q (cq_khead q) 0 (env s) with
  | None => None
  | Some (count, w) =>
      Some (mk_state (set_cq (io_uring_cq_advance q count) u)
                     (emit (EvCqAdvance count) w))
  end.

Definition io_uring_source_dispatch (r : revision) (callback : option GSourceFunc)
    (user_data_ : Z) (s : state) : option (bool * state) :=
  match drain r s with
  | None => None
  | Some s' =>
      match callback with
      | Some f => Some (f user_data_ s')
      | None => Some (G_SOURCE_CONTINUE, s')
      end
  end.

(** [io_uring_queue_exit]: the ring descriptor is closed. *)
Definition io_uring_queue_exit (rg : io_uring) (w : world) : world :=
  emit (EvQueueExit (ring_fd rg)) (set_open_fds (open_fds w ∖ {[ring_fd rg]}) w).

Definition io_uring_source_finalize (u : IoUringSource) (w : world) : world :=
  io_uring_queue_exit (ring u) (g_print MsgFinalizing w).

(** [g_source_new]: a fresh object holding one reference. *)
Definition fresh_source (w : world) : nat :=
  S (max_list (elements (dom (sources w)))).

Definition g_source_new (w : world) : nat * world :=
  let id := fresh_source w in
  (id, set_sources (<[id := 1%nat]> (sources w)) w).

Definition g_source_ref (u : IoUringSource) (w : world) : world :=
  match sources w !! source u with
  | Some n => set_sources (<[source u := S n]> (sources w)) w
  | None => w
  end.

(** [g_source_unref]: dropping the last reference runs the finalize hook
    and releases the object. *)
Definition g_source_unref (u : IoUringSource) (w : world) : world :=
  match sources w !! source u with
  | Some (S (S n)) => set_sources (<[source u := S n]> (sources w)) w
  | Some _ =>
      io_uring_source_finalize u (set_sources (delete (source u) (sources w)) w)
  | None => w
  end.

(** The memory [g_source_new] returns is zero-filled. *)
Definition zero_source (id : nat) : IoUringSource :=
  mk_source id
    (mk_ring (mk_sq 0 0 0 0 0 0 []) (mk_cq 0 0 0 0 []) 0)
    (mk_pollfd 0 0 0).

(** [io_uring_source_new].  [init_ret] is what
    [io_uring_queue_init_params(8, ...)] returns and [rfd] the descriptor of
    the ring it creates on success. *)
Definition io_uring_source_new (init_ret rfd : Z) (w : world)
    : option IoUringSource * world :=
  let '(id, w1) := g_source_new w in
  let u0 := zero_source id in
  if init_ret <? 0 then
    let w2 := g_printerr (MsgInitFailed (to_gint (- init_ret))) w1 in
    (None, g_source_unref u0 w2)
  else
    let w2 := g_print MsgInitOk (set_open_fds ({[rfd]} ∪ open_fds w1) w1) in
    let rg := ring_init 8 rfd in
    (Some (mk_source id rg (mk_pollfd (ring_fd rg) G_IO_IN 0)), w2).

(* ===================================================================== *)
(** ** The kernel side of the rings *)
(* ===================================================================== *)

(** The kernel is not part of the repository.  What the program relies on
    is modelled here after io_uring_enter(2).  Entries are taken from the
    submission ring in order.  An entry with [IOSQE_IO_LINK] forms a chain
    with the entry behind it, which "will not be started before the
    previous request completes"; chains do not reach across submissions;
    "multiple chains can be executing in parallel, or chains and
    individual SQEs.  Only members inside the chain are serialized."  A
    chain is broken by any unexpected result, a short write as much as an
    error, and the rest of a broken chain "will be terminated and completed
    with -ECANCELED".  The comment in [submit_write_operation] says the
    same: "the next operation only executes if this succeeds". *)
Module Kernel.

(** The published entries the kernel has not taken, oldest first. *)
Definition sq_pending (s : io_uring_sq) : list io_uring_sqe :=
  map (fun i => get_sqe_slot (slot (to_uint (sq_khead s + Z.of_nat i))
                                   (sq_ring_mask s)) s)
      (seq 0 (Z.to_nat (to_uint (sq_ktail s - sq_khead s)))).

Definition linked (e : io_uring_sqe) : bool :=
  negb (Z.land (flags e) IOSQE_IO_LINK =? 0).

Definition unlink (e : io_uring_sqe) : io_uring_sqe :=
  mk_sqe (opcode e) (Z.ldiff (flags e) IOSQE_IO_LINK) (fd e) (off e) (addr e)
         (len e) (user_data e).

(** The last entry of a submission ends its chain, whatever its flags. *)
Fixpoint end_chain (l : list io_uring_sqe) : list io_uring_sqe :=
  match l with
  | [] => []
  | e :: rest =>
      match rest with
      | [] => [unlink e]
      | _ :: _ => e :: end_chain rest
      end
  end.

(** The kernel takes every published entry: the slots are free again. *)
Definition take (s : state) : state :=
  let u := uring_source s in
  let q := sq (ring u) in
  mk_state
    (set_sq (mk_sq (sq_ktail q) (sq_ktail q) (sqe_head q) (sqe_tail q)
                   (sq_ring_mask q) (sq_ring_entries q) (sqes q)) u)
    (set_kernel (kernel (env s) ++ end_chain (sq_pending q)) (env s)).

(** One operation against the descriptor table.  [wr fd len] is the
    result of a write of [len] bytes to the open descriptor [fd]. *)
Definition exec_op (wr : Z -> Z -> Z) (e : io_uring_sqe) (fds : gset Z)
    : Z * gset Z :=
  if opcode e =? IORING_OP_WRITE then
    if bool_decide (fd e ∈ fds) then (wr (fd e) (len e), fds)
    else (- EBADF, fds)
  else if opcode e =? IORING_OP_CLOSE then
    if bool_decide (fd e ∈ fds) then (0, fds ∖ {[fd e]})
    else (- EBADF, fds)
  else (0, fds).

(** The results that break a chain: an error, or a write that transferred
    less than was asked. *)
Definition failed (e : io_uring_sqe) (r : Z) : bool :=
  (r <? 0) || ((opcode e =? IORING_OP_WRITE) && (r <? len e)).

(** An entry the kernel holds is waiting, or has completed; [ok] is unset
    when it failed or was cancelled. *)
Inductive status := Pending | Done (ok : bool).

(** An entry may be started once the entry before it has completed, or at
    any time if that entry does not link to it. *)
Definition startable (ops : list io_uring_sqe) (st : list status) (i : nat)
    : bool :=
  match st !! i with
  | Some Pending =>
      match i with
      | O => true
      | S j =>
          match ops !! j, st !! j with
          | Some p, Some Pending => negb (linked p)
          | _, _ => true
          end
      end
  | _ => false
  end.

(** It is cancelled instead of run when the entry linking to it failed or
    was cancelled itself. *)
Definition severed (ops : list io_uring_sqe) (st : list status) (i : nat)
    : bool :=
  match i with
  | O => false
  | S j =>
      match ops !! j, st !! j with
      | Some p, Some (Done false) => linked p
      | _, _ => false
      end
  end.

(** One completion: which entry, its result, whether it was executed, and
    the descriptors open before and after. *)
Record kev := mk_kev {
  kev_index : nat;
  kev_data : Z;
  kev_res : Z;
  kev_ran : bool;
  kev_before : gset Z;
  kev_after : gset Z;
}.

(** The kernel turns to entry [i]; nothing happens if the entry cannot be
    started. *)
Definition step (wr : Z -> Z -> Z) (ops : list io_uring_sqe) (i : nat)
    (k : list status * gset Z) : option (kev * (list status * gset Z)) :=
  let '(st, fds) := k in
  match ops !! i with
  | Some e =>
      if startable ops st i then
        if severed ops st i then
          Some (mk_kev i (user_data e) (- ECANCELED) false fds fds,
                (<[i := Done false]> st, fds))
        else
          let '(r, fds1) := exec_op wr e fds in
          Some (mk_kev i (user_data e) r true fds fds1,
                (<[i := Done (negb (failed e r))]> st, fds1))
      else None
  | None => None
  end.

(** The order in which the kernel turns to the entries is its own:
    [sched] lists the entries it picks. *)
Fixpoint trace (wr : Z -> Z -> Z) (ops : list io_uring_sqe) (sched : list nat)
    (k : list status * gset Z) : list kev * (list status * gset Z) :=
  match sched with
  | [] => ([], k)
  | i :: rest =>
      match step wr ops i k with
      | Some (ev, k1) =>
          let '(evs, k2) := trace wr ops rest k1 in (ev :: evs, k2)
      | None => trace wr ops rest k
      end
  end.

(** The entries still waiting. *)
Fixpoint waiting (ops : list io_uring_sqe) (st : list status)
    : list io_uring_sqe :=
  match ops, st with
  | e :: ops', Pending :: st' => e :: waiting ops' st'
  | _ :: ops', _ :: st' => waiting ops' st'
  | _, _ => []
  end.

(** The kernel appends one completion entry, if the ring has room. *)
Definition post_cqe (q : io_uring_cq) (c : io_uring_cqe) : io_uring_cq :=
  if io_uring_cq_ready q <? cq_ring_entries q then
    mk_cq (cq_khead q) (to_uint (cq_ktail q + 1)) (cq_ring_mask q)
          (cq_ring_entries q)
          (<[slot (cq_ktail q) (cq_ring_mask q) := c]> (cqes q))
  else q.

Definition cqe_of (ev : kev) : io_uring_cqe := mk_cqe (kev_data ev) (kev_res ev).

(** Everything the kernel holds runs to completion: first in the order
    [sched], then what is left in the order of submission.  This may
    happen at any time from [io_uring_enter] on, also before that call
    returns. *)
Definition complete (wr : Z -> Z -> Z) (sched : list nat) (s : state) : state :=
  let u := uring_source s in
  let w := env s in
  let ops := kernel w in
  let '(evs, (st, fds')) :=
    trace wr ops (sched ++ seq 0 (length ops))
          (replicate (length ops) Pending, open_fds w) in
  mk_state (set_cq (foldl post_cqe (cq (ring u)) (map cqe_of evs)) u)
           (set_kernel (waiting ops st) (set_open_fds fds' w)).

(** The poll of the ring descriptor: readable while the completion ring
    is not empty. *)
Definition poll (s : state) : state :=
  let u := uring_source s in
  mk_state
    (set_revents (if io_uring_cq_ready (cq (ring u)) =? 0 then 0
                  else Z.land (events (poll_fd u)) G_IO_IN) u)
    (env s).

End Kernel.

(* ===================================================================== *)
(** ** Submitting a write *)
(* ===================================================================== *)

(** What the system hands back during one [submit_write_operation]. *)
Record syscalls := mk_sys {
  open_ret : Z;            (* open(): a descriptor, or -1 *)
  strdup_ret : Z;          (* g_strdup(): the new block *)
  enter_err : option Z;    (* io_uring_enter(): [Some e] fails with -e *)
}.

(** [io_uring_submit]: publish the prepared entries and enter the kernel,
    which takes them all or fails.  These are the writes of the program and
    the handing over; what the kernel does with the entries it has taken,
    which it may do before [io_uring_enter] returns, is [Kernel.complete]. *)
Definition io_uring_submit (err : option Z) (s : state) : Z * state :=
  let u := uring_source s in
  let '(n, q) := io_uring_flush_sq (sq (ring u)) in
  let s1 := mk_state (set_sq q u) (env s) in
  if n =? 0 then (0, s1)
  else match err with
       | Some e => (- e, s1)
       | None => (to_gint n, Kernel.take s1)
       end.

(** The user data of the close entry: [NULL] at first,
    [GINT_TO_POINTER(fd)] in the revision. *)
Definition close_tag (r : revision) (fd_ : Z) : Z :=
  match r with
  | Original => NULL
  | Revised => GINT_TO_POINTER fd_
  end.

(** What happens when no entry is left for the close: nothing at first, a
    synchronous [close(fd)] in the revision. *)
Definition close_fallback (r : revision) (fd_ : Z) (w : world) : world :=
  match r with
  | Original => w
  | Revised => close fd_ (g_print MsgCloseFallback w)
  end.

Definition submit_write_operation (r : revision) (os : syscalls)
    (length_ : Z) (s : state) : bool * state :=
  let u := uring_source s in
  let w := env s in
  let fd_ := open_ret os in
  if fd_ <? 0 then (FALSE, mk_state u (g_printerr MsgOpenFailed w))
  else
    let w1 := g_print (MsgOpening fd_) (set_open_fds ({[fd_]} ∪ open_fds w) w) in
    let buffer := strdup_ret os in
    let w2 := g_strdup buffer w1 in
    match io_uring_get_sqe (sq (ring u)) with
    | (None, _) =>
        (FALSE,
         mk_state u (g_free buffer (close fd_ (g_printerr MsgGetSqeFailed w2))))
    | (Some i, q1) =>
        let e := io_uring_prep_write (get_sqe_slot i q1) fd_ buffer length_ 0 in
        let e := io_uring_sqe_set_data e buffer in
        let e := sqe_or_flags e IOSQE_IO_LINK in
        let q2 := set_sqe i e q1 in
        let '(q3, w3) :=
          match io_uring_get_sqe q2 with
          | (Some j, q') =>
              let c := io_uring_prep_close (get_sqe_slot j q') fd_ in
              let c := io_uring_sqe_set_data c (close_tag r fd_) in
              (set_sqe j c q', w2)
          | (None, q') => (q', close_fallback r fd_ w2)
          end in
        let w4 := g_print (MsgPrepared length_) w3 in
        let '(submitted, s5) :=
          io_uring_submit (enter_err os) (mk_state (set_sq q3 u) w4) in
        if submitted <? 0 then
          (FALSE,
           mk_state (uring_source s5)
             (g_free buffer
                (close fd_
                   (g_printerr (MsgSubmitFailed (to_gint (- submitted)))
                               (env s5)))))
        else
          (TRUE,
           mk_state (uring_source s5) (g_print (MsgSubmitted submitted) (env s5)))
    end.

(** [on_operation_complete]: counts its own calls and quits the loop at the
    expected number (the constant 2 at first, [expected_completions] in the
    revision). *)
Definition on_operation_complete (r : revision) : GSourceFunc := fun _ s =>
  let w := env s in
  let cs := completion_state w in
  let n := to_gint (completed_count cs + 1) in
  let w1 := g_print (MsgCallback n)
              (set_completion_state (mk_completion (expected_completions cs) n) w) in
  let expected := match r with
                  | Original => 2
                  | Revised => expected_completions cs
                  end in
  if expected <=? n then
    (G_SOURCE_REMOVE,
     mk_state (uring_source s) (emit EvLoopQuit (g_print MsgAllDone w1)))
  else (G_SOURCE_CONTINUE, mk_state (uring_source s) w1).

(** [main], with GLib's [g_main_loop_run] left abstract. *)
Section Main.

Variable g_main_loop_run : state -> state.

Definition main (r : revision) (init_ret rfd : Z) (os : syscalls)
    (length_ : Z) (w : world) : Z * world :=
  let w0 := match r with
            | Original => w
            | Revised => set_completion_state (mk_completion 2 0) w
            end in
  match io_uring_source_new init_ret rfd w0 with
  | (None, w1) => (1, g_printerr MsgCreateFailed w1)
  | (Some u, w1) =>
      (* g_source_set_callback; g_source_attach: the context holds a
         reference of its own *)
      let w2 := g_source_ref u w1 in
      match submit_write_operation r os length_ (mk_state u w2) with
      | (false, s3) =>
          (1, g_source_unref (uring_source s3)
                (g_printerr MsgSubmitWriteFailed (env s3)))
      | (true, s3) =>
          let s4 := g_main_loop_run s3 in
          (0, g_source_unref (uring_source s4) (env s4))
      end
  end.

End Main.

(** A process with the standard descriptors open and nothing else. *)
Definition initial_world : world :=
  mk_world {[0; 1; 2]} ∅ [] ∅ (mk_completion 0 0) [].

(* ===================================================================== *)
(** ** The main context: dispatch order and thread-default stack *)
(* ===================================================================== *)

(** The lessons only call GLib's main context ([g_source_attach],
    [g_main_loop_run], [g_main_context_push_thread_default], ...); its
    implementation is not among the sources.  The two modules below follow
    the specification's description of it. *)

Module Context.

(** An attached source, as far as one iteration's dispatch phase sees it:
    its identity, its priority, and whether prepare or check found it
    ready. *)
Record Source := mk_src {
  src_id : nat;
  priority : Z;
  ready : bool;
}.

(** Modelled from the spec: the Context's dispatch phase, which exists in
    the repository only through its callers.  "Collect all sources that
    are ready (from prepare or check); sort by (priority ascending,
    attachment-order ascending); invoke dispatch() on each in that
    order."  The attached sources are listed in attachment order;
    [insert_by_priority] puts a source in front of the first one whose
    priority is not lower than its own. *)
Fixpoint insert_by_priority (x : Source) (l : list Source) : list Source :=
  match l with
  | [] => [x]
  | y :: l' =>
      if priority x <=? priority y then x :: y :: l'
      else y :: insert_by_priority x l'
  end.

(** Modelled from the spec: the sort of the dispatch phase, "priority
    ascending, attachment-order ascending"; the list is in attachment
    order and each source is inserted in front of the later ones. *)
Definition sort_by_priority (l : list Source) : list Source :=
  foldr insert_by_priority [] l.

(** Modelled from the spec: the Context's dispatch phase (step 5 of the
    iteration), absent from the sources: the ready sources, sorted, in the
    order in which [dispatch()] is invoked on them. *)
Definition dispatch_order (attached : list Source) : list Source :=
  sort_by_priority (List.filter ready attached).

Definition has_priority (p : Z) (x : Source) : bool := priority x =? p.

(** "Lower value = dispatched earlier." *)
Definition by_priority (a b : Source) : Prop := priority a <= priority b.

(** The sources [priority_example.c] attaches, in the order of its
    [g_source_attach] and [g_idle_add_full] calls, at the moment the five
    of them are ready and the 500 ms stop timer is not. *)
Definition priority_example : list Source :=
  [ mk_src 1 G_PRIORITY_LOW true;            (* low_source *)
    mk_src 2 G_PRIORITY_DEFAULT true;        (* default_source *)
    mk_src 3 G_PRIORITY_HIGH true;           (* high_source *)
    mk_src 4 G_PRIORITY_DEFAULT_IDLE true;   (* default_idle_callback *)
    mk_src 5 G_PRIORITY_HIGH_IDLE true;      (* high_idle_callback *)
    mk_src 6 G_PRIORITY_DEFAULT false ].     (* stop_loop *)

End Context.

Module ThreadDefault.

Section Stack.

(** The process-wide default context ([g_main_context_default]). *)
Variable global_default : Z.

(** Modelled from the spec: the Thread-Default Stack, of which the
    repository has only the calls in [context_owner_thread].  "Per-thread
    ordered stack of Context references"; "[current()] returns the top
    of the calling thread's stack, or a process-wide default if empty";
    "[pop] on a context that is not the current top is an error".
    Threads are numbered, contexts are their addresses. *)
Definition stack_of (t : nat) (m : gmap nat (list Z)) : list Z :=
  default [] (m !! t).

(** Modelled from the spec: [push(context)] of the Thread-Default Stack
    ([g_main_context_push_thread_default], absent from the sources). *)
Definition push_default (t : nat) (ctx : Z) (m : gmap nat (list Z))
    : gmap nat (list Z) :=
  <[t := ctx :: stack_of t m]> m.

(** Modelled from the spec: [pop(context)]
    ([g_main_context_pop_thread_default], absent from the sources); "pop on
    a context that is not the current top is an error", here [None]. *)
Definition pop_default (t : nat) (ctx : Z) (m : gmap nat (list Z))
    : option (gmap nat (list Z)) :=
  match stack_of t m with
  | top :: rest =>
      if top =? ctx then Some (<[t := rest]> m) else None
  | [] => None
  end.

(** Modelled from the spec: [current()]
    ([g_main_context_get_thread_default], absent from the sources): "the
    top of the calling thread's stack, or a process-wide default if
    empty". *)
Definition current (t : nat) (m : gmap nat (list Z)) : Z :=
  match stack_of t m with
  | top :: _ => top
  | [] => global_default
  end.

End Stack.

End ThreadDefault.

(* ===================================================================== *)
(** ** Derived notions and concrete runs *)
(* ===================================================================== *)

(** What the completion loop logs for one entry. *)
Definition cqe_events (r : revision) (c : io_uring_cqe) : list event :=
  EvPrint (report_result c)
  :: (if frees_payload r (io_uring_cqe_get_data c)
      then [EvFree (io_uring_cqe_get_data c)] else []).

(** The two entries [submit_write_operation] queues: the write, carrying
    the link flag, the buffer as user data and the length as an [unsigned],
    and the close behind it. *)
Definition write_sqe (fd_ buffer length_ : Z) : io_uring_sqe :=
  mk_sqe IORING_OP_WRITE IOSQE_IO_LINK fd_ 0 buffer (to_uint length_)
         (to_ptr buffer).

Definition close_sqe (r : revision) (fd_ : Z) : io_uring_sqe :=
  mk_sqe IORING_OP_CLOSE 0 fd_ 0 NULL 0 (to_ptr (close_tag r fd_)).

(** Number of lines printed by [on_operation_complete]. *)
Definition is_callback (e : event) : bool :=
  match e with
  | EvPrint (MsgCallback _) => true
  | _ => false
  end.

Definition callback_count (l : list event) : nat :=
  length (List.filter is_callback l).

(** The reading of dispatch under which the completion handler is the
    callback of the source: each of the [n] drained entries gets a call of
    it, and all these calls come before the cursor is advanced. *)
Definition handler_per_entry_before_advance (n : nat) (l : list event) : Prop :=
  exists pre post,
    l = pre ++ EvCqAdvance (Z.of_nat n) :: post /\ callback_count pre = n.

(** Cursors of a submission ring between two calls of
    [submit_write_operation]: everything prepared has been published. *)
Record sq_flushed (q : io_uring_sq) : Prop := {
  sqf_tail : 0 <= sq_ktail q < 2 ^ 32;
  sqf_published : sqe_tail q = sq_ktail q;
  sqf_head : sqe_head q = sq_ktail q;
  sqf_entries : 1 <= sq_ring_entries q;
}.

(** The program after [io_uring_source_new] succeeded with ring descriptor
    3 and the source was attached. *)
Definition booted (r : revision) : state :=
  let w0 := match r with
            | Original => initial_world
            | Revised => set_completion_state (mk_completion 2 0) initial_world
            end in
  match io_uring_source_new 0 3 w0 with
  | (Some u, w1) => mk_state u (g_source_ref u w1)
  | (None, w1) => mk_state (zero_source 0) w1
  end.

(** A block of the heap of a 64-bit process; bit 31 of its address is set. *)
Definition heap_buffer : Z := 0x55819c3b72a0.

(** [open] returns 4, [g_strdup] returns [heap_buffer], the kernel accepts. *)
Definition os_ok : syscalls := mk_sys 4 heap_buffer None.

(** The same, but [io_uring_enter] fails with [EBUSY]. *)
Definition os_busy : syscalls := mk_sys 4 heap_buffer (Some 16).

(** Every write transfers all its bytes. *)
Definition wr_ok : Z -> Z -> Z := fun _ n => n.

(** Every write fails with [ENOSPC]. *)
Definition wr_nospace : Z -> Z -> Z := fun _ _ => -28.

(** One write of 57 bytes submitted. *)
Definition submitted (r : revision) : state :=
  snd (submit_write_operation r os_ok 57 (booted r)).

(** ... and completed: two entries wait in the completion ring. *)
Definition completed (r : revision) : state :=
  Kernel.complete wr_ok [] (submitted r).

(** The poll ran while the ring was still empty; the completions came in
    before the check. *)
Definition late_completion (r : revision) : state :=
  Kernel.complete wr_ok [] (Kernel.poll (submitted r)).

(** The write hits a full disk. *)
Definition failed_write (r : revision) : state :=
  Kernel.complete wr_nospace [] (submitted r).

(** Four submissions in a row refused by the kernel: the eight slots of the
    submission ring are taken. *)
Definition jammed (r : revision) : state :=
  let step s := snd (submit_write_operation r os_busy 57 s) in
  step (step (step (step (booted r)))).

(** A close entry for descriptor 2000. *)
Definition large_fd : Z := 2000.




(* ===================================================================== *)
(** ** Further notions about the ring source *)
(* ===================================================================== *)

(** Shape of a submission ring while entries are being prepared: a
    power-of-two number of slots below [2^31], cursors in range, at most
    [ring_entries] entries prepared and not taken. *)
Record sq_wf (q : io_uring_sq) : Prop := {
  sq_wf_pow : exists k, 0 <= k < 31 /\ sq_ring_entries q = 2 ^ k;
  sq_wf_mask : sq_ring_mask q = sq_ring_entries q - 1;
  sq_wf_len : length (sqes q) = Z.to_nat (sq_ring_entries q);
  sq_wf_head : 0 <= sq_khead q < 2 ^ 32;
  sq_wf_tail : 0 <= sqe_tail q < 2 ^ 32;
  sq_wf_room : to_uint (sqe_tail q - sq_khead q) <= sq_ring_entries q;
}.

(** The entries handed out by [io_uring_get_sqe] that the kernel has not
    taken, oldest first. *)
Definition sq_prepared (q : io_uring_sq) : list io_uring_sqe :=
  map (fun i => get_sqe_slot (slot (to_uint (sq_khead q + Z.of_nat i))
                                   (sq_ring_mask q)) q)
      (seq 0 (Z.to_nat (to_uint (sqe_tail q - sq_khead q)))).

(** Slots [io_uring_get_sqe] can still hand out. *)
Definition sq_free (q : io_uring_sq) : Z :=
  sq_ring_entries q - to_uint (sqe_tail q - sq_khead q).

(** Calls of [g_main_loop_quit]. *)
Definition is_quit (e : event) : bool :=
  match e with
  | EvLoopQuit => true
  | _ => false
  end.

Definition quit_count (l : list event) : nat :=
  length (List.filter is_quit l).

(** How many of the entries carry the payload [p]. *)
Definition payload_count (p : Z) (cs : list io_uring_cqe) : nat :=
  length (List.filter (fun c => io_uring_cqe_get_data c =? p) cs).

(** The callback of a source called [n] times in a row, once per dispatch:
    the values it returned and the state it leaves. *)
Fixpoint callbacks (n : nat) (f : GSourceFunc) (ud : Z) (s : state)
    : list bool * state :=
  match n with
  | O => ([], s)
  | S n' =>
      let '(b, s1) := f ud s in
      let '(bs, s2) := callbacks n' f ud s1 in
      (b :: bs, s2)
  end.

(** A submission ring with seven of its eight slots taken: the jammed ring
    after the kernel has taken a single entry. *)
Definition one_slot_left (r : revision) : state :=
  let s := jammed r in
  let u := uring_source s in
  let q := sq (ring u) in
  mk_state
    (set_sq (mk_sq (to_uint (sq_khead q + 1)) (sq_ktail q) (sqe_head q)
                   (sqe_tail q) (sq_ring_mask q) (sq_ring_entries q) (sqes q)) u)
    (env s).

(** The submission ring once [io_uring_submit] has published what was
    prepared, and once the kernel has taken what was published. *)
Definition sq_publish (q : io_uring_sq) : io_uring_sq :=
  mk_sq (sq_khead q) (sqe_tail q) (sqe_tail q) (sqe_tail q)
        (sq_ring_mask q) (sq_ring_entries q) (sqes q).

Definition sq_take (q : io_uring_sq) : io_uring_sq :=
  mk_sq (sq_ktail q) (sq_ktail q) (sqe_head q) (sqe_tail q)
        (sq_ring_mask q) (sq_ring_entries q) (sqes q).

(* ===================================================================== *)
(** ** The callbacks of the main-loop lessons *)
(* ===================================================================== *)

(** The main loop calls the callback of a source at each dispatch and
    removes the source at the first [FALSE].  [calls_until_removed] is the
    number of that call, if it comes within [fuel] calls, and the state
    the callback has left. *)
Fixpoint calls_until_removed {St : Type} (fuel : nat) (f : St -> bool * St)
    (s : St) : option (nat * St) :=
  match fuel with
  | O => None
  | S fuel' =>
      let '(b, s1) := f s in
      if b then
        match calls_until_removed fuel' f s1 with
        | Some (n, s2) => Some (S n, s2)
        | None => None
        end
      else Some (1%nat, s1)
  end.

(** Two sequences of events merged in some order. *)
Inductive interleaving {A : Type} : list A -> list A -> list A -> Prop :=
| interleaving_nil : interleaving [] [] []
| interleaving_left x l1 l2 l :
    interleaving l1 l2 l -> interleaving (x :: l1) l2 (x :: l)
| interleaving_right x l1 l2 l :
    interleaving l1 l2 l -> interleaving l1 (x :: l2) (x :: l).

(** [idle_example.c]. *)
Module IdleExample.

Record globals := mk_globals {
  idle_count : Z;      (* static gint idle_count *)
  work_items : Z;      (* static gint work_items *)
  count : Z;           (* static gint count of high_priority_idle *)
  loop_quits : nat;    (* calls of g_main_loop_quit *)
}.

Definition idle_function (g : globals) : bool * globals :=
  let n := to_gint (idle_count g + 1) in
  let g1 := mk_globals n (work_items g) (count g) (loop_quits g) in
  if 5 <=? n then (FALSE, g1) else (TRUE, g1).

Definition high_priority_idle (g : globals) : bool * globals :=
  let n := to_gint (count g + 1) in
  let g1 := mk_globals (idle_count g) (work_items g) n (loop_quits g) in
  if 3 <=? n then (FALSE, g1) else (TRUE, g1).

Definition process_work (g : globals) : bool * globals :=
  let n := to_gint (work_items g + 1) in
  let g1 := mk_globals (idle_count g) n (count g) (loop_quits g) in
  if 8 <=? n then
    (FALSE, mk_globals (idle_count g1) (work_items g1) (count g1)
                       (S (loop_quits g1)))
  else (TRUE, g1).

Definition oneshot_idle (g : globals) : bool * globals := (FALSE, g).

Definition start : globals := mk_globals 0 0 0 0.

End IdleExample.

(** [simple_loop.c]. *)
Module SimpleLoop.

Record globals := mk_globals {
  counter : Z;         (* static gint counter *)
  loop_quits : nat;
}.

Definition timeout_callback (g : globals) : bool * globals :=
  let n := to_gint (counter g + 1) in
  if 5 <=? n then (FALSE, mk_globals n (S (loop_quits g)))
  else (TRUE, mk_globals n (loop_quits g)).

End SimpleLoop.

(** [context_threading.c]. *)
Module ContextThreading.

Record globals := mk_globals {
  work_counter : Z;            (* static gint work_counter *)
  timeout_count : Z;           (* static gint timeout_count *)
  main_loop_quits : nat;       (* g_main_loop_quit(main_loop) *)
  loop_quits : nat;            (* g_main_loop_quit(loop) of the context thread *)
  updates : list (Z * Z);      (* "[Main Thread] Update from worker %d (counter: %d)" *)
}.

Definition update_from_worker (user_data_ : Z) (g : globals) : bool * globals :=
  let worker_id := GPOINTER_TO_INT user_data_ in
  let n := to_gint (work_counter g + 1) in
  let g1 := mk_globals n (timeout_count g) (main_loop_quits g) (loop_quits g)
                       (updates g ++ [(worker_id, n)]) in
  if 10 <=? n then
    (FALSE, mk_globals (work_counter g1) (timeout_count g1)
                       (S (main_loop_quits g1)) (loop_quits g1) (updates g1))
  else (FALSE, g1).

(** [worker_thread]: the user data of the idle callbacks it schedules with
    [g_idle_add(update_from_worker, GINT_TO_POINTER(worker_id))], one per
    turn of its loop. *)
Fixpoint worker_loop (turns : nat) (worker_id : Z) : list Z :=
  match turns with
  | O => []
  | S turns' => GINT_TO_POINTER worker_id :: worker_loop turns' worker_id
  end.

Definition worker_thread (user_data_ : Z) : list Z :=
  worker_loop 5 (GPOINTER_TO_INT user_data_).

(** The idle callbacks run by the main thread, in the order given. *)
Definition run_idles (scheduled : list Z) (g : globals) : globals :=
  fold_left (fun g ud => snd (update_from_worker ud g)) scheduled g.

(** The timeout callback of [context_owner_thread]. *)
Definition callback (g : globals) : bool * globals :=
  let n := to_gint (timeout_count g + 1) in
  if 3 <=? n then
    (FALSE, mk_globals (work_counter g) n (main_loop_quits g)
                       (S (loop_quits g)) (updates g))
  else
    (TRUE, mk_globals (work_counter g) n (main_loop_quits g) (loop_quits g)
                      (updates g)).

Definition start : globals := mk_globals 0 0 0 0 [].

End ContextThreading.

(** [custom_source.c]. *)
Module CustomSource.

Record CounterSource := mk_counter {
  counter : Z;
  trigger_value : Z;
}.

Definition counter_prepare (c : CounterSource) : (bool * Z) * CounterSource :=
  ((trigger_value c <=? counter c, -1), c).

Definition counter_check (c : CounterSource) : bool * CounterSource :=
  let n := to_gint (counter c + 1) in
  (trigger_value c <=? n, mk_counter n (trigger_value c)).

Definition counter_source_new (trigger : Z) : CounterSource :=
  mk_counter 0 trigger.

(** The check of the counter source repeated until it answers [TRUE]:
    the number of checks made, if at most [fuel]. *)
Fixpoint checks_until_ready (fuel : nat) (c : CounterSource)
    : option (nat * CounterSource) :=
  match fuel with
  | O => None
  | S fuel' =>
      let '(b, c1) := counter_check c in
      if b then Some (1%nat, c1)
      else match checks_until_ready fuel' c1 with
           | Some (n, c2) => Some (S n, c2)
           | None => None
           end
  end.

Record SimpleSource := mk_simple {
  call_count : Z;
  max_calls : Z;
}.

Definition simple_prepare (s : SimpleSource) : (bool * Z) * SimpleSource :=
  ((TRUE, 0), s).

Definition simple_check (s : SimpleSource) : bool * SimpleSource := (TRUE, s).

(** [simple_callback], with its [static gint call_num]. *)
Definition simple_callback (call_num : Z) : bool * Z :=
  let n := to_gint (call_num + 1) in
  (n <? 5, n).

(** [simple_dispatch]; the state of the callback is threaded along. *)
Definition simple_dispatch {C : Type} (callback : option (C -> bool * C))
    (st : SimpleSource * C) : bool * (SimpleSource * C) :=
  let '(s, c) := st in
  let n := to_gint (call_count s + 1) in
  let s1 := mk_simple n (max_calls s) in
  match callback with
  | Some f =>
      let '(continue_source, c1) := f c in
      if max_calls s1 <=? call_count s1 then (FALSE, (s1, c1))
      else (continue_source, (s1, c1))
  | None => (call_count s1 <? max_calls s1, (s1, c))
  end.

Definition simple_source_new (max : Z) : SimpleSource := mk_simple 0 max.

End CustomSource.

(** [mutex_example.c]: the increments of the counter threads, one
    statement at a time. *)
Module MutexExample.

(** Where a thread stands in the body of its loop. *)
Inductive place := AtLock | AtRead | AtWrite | AtUnlock.

Record worker := mk_worker {
  at_ : place;
  temp : Z;            (* gint temp *)
  todo : nat;          (* turns of the loop still to do *)
}.

Record shared := mk_shared {
  shared_counter : Z;
  unprotected_counter : Z;
  counter_mutex : option nat;      (* the thread that holds the mutex *)
  workers : list worker;
}.

Definition set_worker (t : nat) (w : worker) (s : shared) : shared :=
  mk_shared (shared_counter s) (unprotected_counter s) (counter_mutex s)
            (<[t := w]> (workers s)).

(** One statement of [protected_increment_thread], run by thread [t]:
    [g_mutex_lock], [temp = shared_counter], [shared_counter = temp + 1],
    [g_mutex_unlock].  A thread that has finished, or that waits for the
    mutex, does not move. *)
Definition protected_increment_thread (t : nat) (s : shared) : shared :=
  match workers s !! t with
  | None => s
  | Some w =>
      match todo w with
      | O => s
      | S k =>
          match at_ w with
          | AtLock =>
              match counter_mutex s with
              | Some _ => s
              | None =>
                  mk_shared (shared_counter s) (unprotected_counter s) (Some t)
                            (<[t := mk_worker AtRead (temp w) (todo w)]> (workers s))
              end
          | AtRead =>
              set_worker t (mk_worker AtWrite (shared_counter s) (todo w)) s
          | AtWrite =>
              mk_shared (to_gint (temp w + 1)) (unprotected_counter s)
                        (counter_mutex s)
                        (<[t := mk_worker AtUnlock (temp w) (todo w)]> (workers s))
          | AtUnlock =>
              mk_shared (shared_counter s) (unprotected_counter s) None
                        (<[t := mk_worker AtLock (temp w) k]> (workers s))
          end
      end
  end.

(** One statement of [unprotected_increment_thread]:
    [temp = unprotected_counter], then [unprotected_counter = temp + 1]. *)
Definition unprotected_increment_thread (t : nat) (s : shared) : shared :=
  match workers s !! t with
  | None => s
  | Some w =>
      match todo w with
      | O => s
      | S k =>
          match at_ w with
          | AtWrite =>
              mk_shared (shared_counter s) (to_gint (temp w + 1))
                        (counter_mutex s)
                        (<[t := mk_worker AtRead (temp w) k]> (workers s))
          | _ =>
              set_worker t (mk_worker AtWrite (unprotected_counter s) (todo w)) s
          end
      end
  end.

(** [threads] threads created with [iterations] turns each. *)
Definition start (first : place) (threads iterations : nat) : shared :=
  mk_shared 0 0 None (replicate threads (mk_worker first 0 iterations)).

(** The threads run by a scheduler that picks thread after thread. *)
Definition run (step : nat -> shared -> shared) (schedule : list nat)
    (s : shared) : shared :=
  fold_left (fun s t => step t s) schedule s.

Definition finished (s : shared) : bool :=
  forallb (fun w => Nat.eqb (todo w) 0) (workers s).

(** Increments a thread has still to make. *)
Definition owed (w : worker) : nat :=
  match at_ w with
  | AtUnlock => pred (todo w)
  | _ => todo w
  end.

Definition owed_sum (ws : list worker) : nat :=
  foldr (fun w n => (owed w + n)%nat) 0%nat ws.

Definition owed_total (s : shared) : nat := owed_sum (workers s).

(** What holds of the threads and the counter at every moment. *)
Record inv (total : Z) (s : shared) : Prop := {
  inv_inside : forall t w, workers s !! t = Some w -> at_ w <> AtLock ->
                 counter_mutex s = Some t /\ todo w <> 0%nat;
  inv_temp : forall t w, workers s !! t = Some w -> at_ w = AtWrite ->
                 temp w = shared_counter s;
  inv_sum : shared_counter s = to_gint (total - Z.of_nat (owed_total s));
  inv_owed : Z.of_nat (owed_total s) <= total;
}.


(** Two threads taking turns statement by statement, for [k] turns of
    their loops. *)
Fixpoint lockstep (k : nat) : list nat :=
  match k with
  | O => []
  | S k' => [0; 1; 0; 1]%nat ++ lockstep k'
  end.

End MutexExample.

(* ===================================================================== *)
(** ** Arithmetic of the 32-bit cursors *)
(* ===================================================================== *)

Lemma to_uint_range z : 0 <= to_uint z < 2 ^ 32.
Proof. unfold to_uint. apply Z.mod_pos_bound. lia. Qed.

Lemma to_uint_small z : 0 <= z < 2 ^ 32 -> to_uint z = z.
Proof. intros H. unfold to_uint. now apply Z.mod_small. Qed.

Lemma to_uint_add_l a b : to_uint (to_uint a + b) = to_uint (a + b).
Proof. unfold to_uint. apply Zplus_mod_idemp_l. Qed.

Lemma to_uint_sub_r a b : to_uint (a - to_uint b) = to_uint (a - b).
Proof. unfold to_uint. apply Zminus_mod_idemp_r. Qed.

(** Two cursors at distance zero coincide. *)
Lemma cursor_distance_zero head tail :
  0 <= head < 2 ^ 32 -> 0 <= tail < 2 ^ 32 ->
  to_uint (tail - head) = 0 -> head = tail.
Proof.
  unfold to_uint. intros Hh Ht H.
  change (2 ^ 32) with 4294967296 in *.
  Z.div_mod_to_equations. lia.
Qed.

(** One step of the consumer shortens the distance by one. *)
Lemma cursor_distance_step head tail n :
  to_uint (tail - head) = Z.of_nat (S n) ->
  to_uint (tail - to_uint (head + 1)) = Z.of_nat n.
Proof.
  rewrite to_uint_sub_r. unfold to_uint.
  change (2 ^ 32) with 4294967296 in *.
  intros H. Z.div_mod_to_equations. lia.
Qed.

(** The consumer that walked the whole distance stands on the producer. *)
Lemma cursor_catch_up head tail :
  0 <= tail < 2 ^ 32 ->
  to_uint (head + to_uint (tail - head)) = tail.
Proof.
  intros Ht. rewrite Z.add_comm, to_uint_add_l.
  replace (tail - head + head) with tail by lia. now apply to_uint_small.
Qed.

(* ===================================================================== *)
(** ** The completion loop *)
(* ===================================================================== *)

Lemma log_emit e w : log (emit e w) = log w ++ [e].
Proof. reflexivity. Qed.

Lemma handle_cqe_log r c w :
  log (handle_cqe r c w) = log w ++ cqe_events r c.
Proof.
  unfold handle_cqe, cqe_events.
  destruct (frees_payload r (io_uring_cqe_get_data c)); cbn.
  - now rewrite <- app_assoc.
  - reflexivity.
Qed.

Lemma cq_from_S q head n :
  0 <= head < 2 ^ 32 ->
  cq_from q head (S n) = cqe_at q head :: cq_from q (to_uint (head + 1)) n.
Proof.
  intros Hh. unfold cq_from. cbn [seq map]. f_equal.
  - now rewrite Z.add_0_r, to_uint_small.
  - rewrite <- seq_shift, map_map. apply map_ext. intros i.
    rewrite to_uint_add_l. do 2 f_equal. lia.
Qed.

(** The loop visits exactly the entries between the cursors, oldest first,
    and leaves by its own test. *)
Lemma for_each_cqe_spec r q n : forall fuel head count w,
  0 <= head < 2 ^ 32 -> 0 <= cq_ktail q < 2 ^ 32 ->
  0 <= count < 2 ^ 32 ->
  to_uint (cq_ktail q - head) = Z.of_nat n ->
  (n <= fuel)%nat ->
  for_each_cqe fuel r q head count w =
    Some (to_uint (count + Z.of_nat n),
          fold_left (fun w c => handle_cqe r c w) (cq_from q head n) w).
Proof.
  induction n as [|n IH]; intros fuel head count w Hh Ht Hc Hd Hf.
  - apply cursor_distance_zero in Hd; [|assumption..]. subst head.
    destruct fuel; cbn [for_each_cqe]; rewrite Z.eqb_refl;
      rewrite Z.add_0_r, to_uint_small by assumption; reflexivity.
  - destruct fuel as [|fuel]; [lia|]. cbn [for_each_cqe].
    destruct (Z.eqb_spec head (cq_ktail q)) as [->|Hne].
    + rewrite Z.sub_diag in Hd. unfold to_uint in Hd.
      rewrite Z.mod_0_l in Hd by lia. lia.
    + rewrite (IH fuel); try apply to_uint_range; try assumption; try lia.
      * rewrite cq_from_S by assumption. cbn [fold_left].
        rewrite to_uint_add_l. do 3 f_equal. lia.
      * now apply cursor_distance_step.
Qed.

Lemma fold_handle_cqe_log r cs : forall w,
  log (fold_left (fun w c => handle_cqe r c w) cs w) =
  log w ++ flat_map (cqe_events r) cs.
Proof.
  induction cs as [|c cs IH]; intros w; cbn [fold_left flat_map].
  - now rewrite app_nil_r.
  - rewrite IH, handle_cqe_log. now rewrite <- app_assoc.
Qed.

Lemma cq_visible_length q :
  length (cq_visible q) = Z.to_nat (io_uring_cq_ready q).
Proof. unfold cq_visible, cq_from. now rewrite length_map, length_seq. Qed.

Lemma io_uring_cq_ready_range q : 0 <= io_uring_cq_ready q < 2 ^ 32.
Proof. apply to_uint_range. Qed.

(** What [drain] computes: the per-entry work on the visible entries in
    ring order, then one advance of the consumer cursor onto the producer
    cursor. *)
Lemma drain_spec r s :
  let q := cq (ring (uring_source s)) in
  cq_wf q ->
  exists s',
    drain r s = Some s' /\
    log (env s') =
      log (env s) ++ flat_map (cqe_events r) (cq_visible q)
                  ++ [EvCqAdvance (Z.of_nat (length (cq_visible q)))] /\
    cq_khead (cq (ring (uring_source s'))) =
      to_uint (cq_khead q + Z.of_nat (length (cq_visible q))) /\
    cq_khead (cq (ring (uring_source s'))) = cq_ktail q /\
    cq_ktail (cq (ring (uring_source s'))) = cq_ktail q /\
    cqes (cq (ring (uring_source s'))) = cqes q /\
    sq (ring (uring_source s')) = sq (ring (uring_source s)).
Proof.
  intros q Hwf. destruct Hwf as [_ _ _ Hh Ht _].
  pose proof (io_uring_cq_ready_range q) as Hr.
  unfold drain. fold q.
  rewrite (for_each_cqe_spec r q (Z.to_nat (io_uring_cq_ready q)));
    try assumption; try lia.
  2: { rewrite Z2Nat.id by lia. reflexivity. }
  rewrite Z.add_0_l, Z2Nat.id, to_uint_small by lia.
  eexists. split; [reflexivity|].
  rewrite cq_visible_length, Z2Nat.id by lia.
  cbn [env uring_source]. rewrite log_emit, fold_handle_cqe_log.
  fold (cq_visible q). rewrite <- app_assoc.
  assert (Hadv : cq_khead (io_uring_cq_advance q (io_uring_cq_ready q)) = cq_ktail q
                 /\ cq_ktail (io_uring_cq_advance q (io_uring_cq_ready q)) = cq_ktail q
                 /\ cqes (io_uring_cq_advance q (io_uring_cq_ready q)) = cqes q).
  { unfold io_uring_cq_advance.
    destruct (Z.eqb_spec (io_uring_cq_ready q) 0) as [H0|H0]; cbn.
    - apply cursor_distance_zero in H0; auto.
    - split; [|auto]. unfold io_uring_cq_ready. now apply cursor_catch_up. }
  destruct Hadv as (Ha & Hb & Hc).
  repeat split; cbn; try assumption.
  rewrite Ha. symmetry. unfold io_uring_cq_ready. now apply cursor_catch_up.
Qed.

(* ===================================================================== *)
(** ** Ring order is arrival order *)
(* ===================================================================== *)

Lemma slot_mod cursor k :
  0 <= k -> slot cursor (2 ^ k - 1) = Z.to_nat (cursor mod 2 ^ k).
Proof.
  intros Hk. unfold slot. f_equal.
  replace (2 ^ k - 1) with (Z.ones k) by (rewrite Z.ones_equiv; lia).
  now apply Z.land_ones.
Qed.

(** Cursors less than a ring apart designate different slots. *)
Lemma slot_distinct i j k d :
  0 <= k < 31 ->
  to_uint (j - i) = d -> 0 < d < 2 ^ k ->
  slot i (2 ^ k - 1) <> slot j (2 ^ k - 1).
Proof.
  intros Hk Hd Hlt. rewrite !slot_mod by lia. intros Heq.
  assert (Hpos : 0 < 2 ^ k) by (apply Z.pow_pos_nonneg; lia).
  apply Z2Nat.inj in Heq; try (apply Z.mod_pos_bound; lia).
  assert (Hdiv : (2 ^ k | 2 ^ 32)).
  { exists (2 ^ (32 - k)). rewrite <- Z.pow_add_r by lia. f_equal. lia. }
  assert (H1 : (j - i) mod 2 ^ k = d).
  { rewrite <- (Z.mod_mod_divide _ (2 ^ 32)) by assumption.
    unfold to_uint in Hd. rewrite Hd. apply Z.mod_small. lia. }
  rewrite Zminus_mod, Heq, Z.sub_diag, Z.mod_0_l in H1 by lia. lia.
Qed.

Lemma slot_in_ring cursor k :
  0 <= k -> (slot cursor (2 ^ k - 1) < Z.to_nat (2 ^ k))%nat.
Proof.
  intros Hk. rewrite slot_mod by lia.
  assert (Hpos : 0 < 2 ^ k) by (apply Z.pow_pos_nonneg; lia).
  pose proof (Z.mod_pos_bound cursor (2 ^ k) Hpos). lia.
Qed.

Lemma cq_from_snoc q head n :
  cq_from q head (S n) =
  cq_from q head n ++ [cqe_at q (to_uint (head + Z.of_nat n))].
Proof.
  unfold cq_from. rewrite seq_S, map_app. reflexivity.
Qed.

(** The kernel's [post_cqe] appends at the young end of the visible
    entries: [cq_visible] lists them in the order of their arrival. *)
Lemma cq_visible_post_cqe q c :
  cq_wf q -> io_uring_cq_ready q < cq_ring_entries q ->
  cq_visible (Kernel.post_cqe q c) = cq_visible q ++ [c]
  /\ cq_wf (Kernel.post_cqe q c).
Proof.
  intros [(k & Hk & Hpow) Hmask Hlen Hh Ht Hready] Hroom.
  assert (Hpos : 0 < 2 ^ k) by (apply Z.pow_pos_nonneg; lia).
  assert (Hle : 2 ^ k <= 2 ^ 30) by (apply Z.pow_le_mono_r; lia).
  pose proof (io_uring_cq_ready_range q) as Hr.
  unfold Kernel.post_cqe.
  destruct (Z.ltb_spec (io_uring_cq_ready q) (cq_ring_entries q)) as [_|]; [|lia].
  set (q' := mk_cq _ _ _ _ _).
  assert (Hready' : io_uring_cq_ready q' = io_uring_cq_ready q + 1).
  { unfold io_uring_cq_ready, q'; cbn [cq_ktail cq_khead].
    unfold io_uring_cq_ready in Hroom, Hr. rewrite Hpow in Hroom.
    unfold to_uint in *. change (2 ^ 32) with 4294967296 in *.
    change (2 ^ 30) with 1073741824 in *.
    Z.div_mod_to_equations. lia. }
  split.
  - unfold cq_visible. rewrite Hready'.
    replace (Z.to_nat (io_uring_cq_ready q + 1))
      with (S (Z.to_nat (io_uring_cq_ready q))) by lia.
    rewrite cq_from_snoc. cbn [cq_khead q'].
    f_equal.
    + unfold cq_from. apply map_ext_in. intros i Hi. apply in_seq in Hi.
      unfold cqe_at, q'; cbn [cqes cq_ring_mask]. rewrite Hmask, Hpow.
      rewrite list_lookup_insert_ne; [reflexivity|].
      apply not_eq_sym.
      apply (slot_distinct _ _ k (io_uring_cq_ready q - Z.of_nat i)); try lia.
      unfold io_uring_cq_ready in *. rewrite to_uint_sub_r.
      unfold to_uint in *. change (2 ^ 32) with 4294967296 in *.
      Z.div_mod_to_equations. lia.
    + rewrite Z2Nat.id by lia. unfold io_uring_cq_ready.
      rewrite cursor_catch_up by assumption.
      unfold cqe_at, q'; cbn [cqes cq_ring_mask].
      rewrite list_lookup_insert_eq; [reflexivity|].
      rewrite Hlen, Hmask, Hpow. apply slot_in_ring. lia.
  - constructor; unfold q'; cbn [cq_ring_entries cq_ring_mask cqes cq_khead cq_ktail];
      try assumption.
    + exists k. auto.
    + now rewrite length_insert.
    + apply to_uint_range.
    + fold q'. rewrite Hready'. lia.
Qed.

(* ===================================================================== *)
(** ** Dispatch *)
(* ===================================================================== *)

Lemma cq_visible_empty q :
  cq_khead q = cq_ktail q -> cq_visible q = [].
Proof.
  intros H. unfold cq_visible, io_uring_cq_ready. rewrite H, Z.sub_diag.
  reflexivity.
Qed.

Lemma callback_count_app l1 l2 :
  callback_count (l1 ++ l2) = (callback_count l1 + callback_count l2)%nat.
Proof. unfold callback_count. now rewrite List.filter_app, length_app. Qed.

(** The completion ring of the runs above is well formed. *)
Lemma completed_cq_wf r : cq_wf (cq (ring (uring_source (completed r)))).
Proof.
  destruct r; (constructor;
    [ exists 4; split; [lia | reflexivity]
    | reflexivity | reflexivity
    | vm_compute; split; congruence
    | vm_compute; split; congruence
    | vm_compute; congruence ]).
Qed.

(** What dispatch does with the entries themselves.  Every call visits
    all completion entries visible at that moment, oldest first; for each
    it reports the signed result code in place (a negative code as a
    failure, any other as a byte count) and applies the buffer-release
    test; when the loop is over it advances the consumer cursor of the
    completion ring, once, by exactly the number of entries visited, which
    leaves the ring empty.  The callback of the source is called after that
    advance, on the user data alone. *)
Theorem dispatch_drains_then_advances r callback ud s :
  let q := cq (ring (uring_source s)) in
  cq_wf q ->
  exists s',
    drain r s = Some s' /\
    io_uring_source_dispatch r callback ud s =
      Some (match callback with
            | Some f => f ud s'
            | None => (G_SOURCE_CONTINUE, s')
            end) /\
    log (env s') =
      log (env s) ++ flat_map (cqe_events r) (cq_visible q)
                  ++ [EvCqAdvance (Z.of_nat (length (cq_visible q)))] /\
    cq_khead (cq (ring (uring_source s'))) =
      to_uint (cq_khead q + Z.of_nat (length (cq_visible q))) /\
    cq_visible (cq (ring (uring_source s'))) = [].
Proof.
  intros q Hwf.
  destruct (drain_spec r s Hwf) as (s' & Hd & Hlog & Hhead & Hht & Htt & _).
  exists s'. repeat split; try assumption.
  - unfold io_uring_source_dispatch. rewrite Hd. now destruct callback.
  - apply cq_visible_empty. congruence.
Qed.

Lemma dispatch_drains_then_advances_witness :
  cq_wf (cq (ring (uring_source (completed Revised)))) /\
  exists s',
    io_uring_source_dispatch Revised None NULL (completed Revised)
      = Some (G_SOURCE_CONTINUE, s') /\
    cq_visible (cq (ring (uring_source s'))) = [].
Proof.
  split; [apply completed_cq_wf|].
  destruct (dispatch_drains_then_advances Revised None NULL (completed Revised)
              (completed_cq_wf Revised)) as (s' & _ & Hd & _ & _ & He).
  exists s'. split; assumption.
Defined.

(** What one dispatch of the two completions of a write logs. *)
Lemma dispatch_completed_log :
  exists b s',
    io_uring_source_dispatch Revised (Some (on_operation_complete Revised))
                             NULL (completed Revised) = Some (b, s') /\
    length (cq_visible (cq (ring (uring_source (completed Revised))))) = 2%nat /\
    log (env s') =
      log (env (completed Revised))
      ++ [EvPrint (MsgOpCompleted 57); EvPrint (MsgOpCompleted 0);
          EvCqAdvance 2; EvPrint (MsgCallback 1)].
Proof. do 2 eexists. split; [vm_compute; reflexivity|]. split; reflexivity. Qed.

(** Two completion entries are visible and the source has its callback;
    one dispatch calls the callback once, after the advance, so the log is
    not one of two handler calls followed by the advance. *)
Lemma dispatch_handler_not_per_entry :
  exists b s',
    io_uring_source_dispatch Revised (Some (on_operation_complete Revised))
                             NULL (completed Revised) = Some (b, s') /\
    length (cq_visible (cq (ring (uring_source (completed Revised))))) = 2%nat /\
    ~ handler_per_entry_before_advance 2 (log (env s')).
Proof.
  destruct dispatch_completed_log as (b & s' & Hd & Hn & Hlog).
  exists b, s'. repeat split; try assumption.
  intros (pre & post & Heq & Hcount).
  assert (H1 : callback_count (log (env s')) = 1%nat)
    by (rewrite Hlog; vm_compute; reflexivity).
  rewrite Heq, callback_count_app in H1. lia.
Qed.

(** C1, the code at the failing input.  The write and the close have both
    completed before the source is dispatched.  The one dispatch visits the
    two entries and empties the ring, but calls the completion handler
    [on_operation_complete] once: one completion is counted where two are
    expected, [g_main_loop_quit] is not called, nothing is left in flight,
    and the next poll and check find nothing: the source is not dispatched
    again and the loop of [main] does not end. *)
Lemma dispatch_two_entries_one_callback (r : revision) :
  exists s',
    io_uring_source_dispatch r (Some (on_operation_complete r)) NULL
                             (completed r) = Some (G_SOURCE_CONTINUE, s') /\
    length (cq_visible (cq (ring (uring_source (completed r))))) = 2%nat /\
    callback_count (log (env s')) = 1%nat /\
    completed_count (completion_state (env s')) = 1 /\
    quit_count (log (env s')) = 0%nat /\
    cq_visible (cq (ring (uring_source s'))) = [] /\
    kernel (env s') = [] /\
    fst (io_uring_source_check (Kernel.poll s')) = FALSE.
Proof.
  destruct r; (eexists; split; [vm_compute; reflexivity|]);
    repeat split; vm_compute; reflexivity.
Qed.

(* ===================================================================== *)
(** ** Release of the write buffer *)
(* ===================================================================== *)

Lemma to_gint_small z : - 2 ^ 31 <= z < 2 ^ 31 -> to_gint z = z.
Proof.
  intros H. unfold to_gint. rewrite Z.mod_small; lia.
Qed.


Lemma frees_payload_revised p :
  frees_payload Revised p = true <-> p <> NULL /\ 1024 < GPOINTER_TO_INT p.
Proof.
  unfold frees_payload. rewrite andb_true_iff, negb_true_iff.
  rewrite Z.eqb_neq, Z.ltb_lt. reflexivity.
Qed.

Lemma frees_payload_original p :
  frees_payload Original p = true <-> p <> NULL.
Proof.
  unfold frees_payload. rewrite negb_true_iff. apply Z.eqb_neq.
Qed.

(** A block that fails the release test stays allocated through the loop,
    whatever the completion ring holds. *)
Lemma handle_cqe_keeps r c w p :
  frees_payload r p = false -> p ∈ heap w -> p ∈ heap (handle_cqe r c w).
Proof.
  intros Hp Hin. unfold handle_cqe.
  destruct (frees_payload r (io_uring_cqe_get_data c)) eqn:Hc; cbn; [|exact Hin].
  apply elem_of_difference. split; [exact Hin|].
  rewrite elem_of_singleton. intros ->. congruence.
Qed.

Lemma drain_keeps r s s' p :
  cq_wf (cq (ring (uring_source s))) ->
  drain r s = Some s' ->
  frees_payload r p = false -> p ∈ heap (env s) -> p ∈ heap (env s').
Proof.
  set (q := cq (ring (uring_source s))).
  intros [_ _ _ Hh Ht _] Hd Hp Hin.
  pose proof (io_uring_cq_ready_range q) as Hr.
  unfold drain in Hd. fold q in Hd.
  rewrite (for_each_cqe_spec r q (Z.to_nat (io_uring_cq_ready q))) in Hd;
    try assumption; try lia.
  2: { rewrite Z2Nat.id by lia. reflexivity. }
  injection Hd as <-. cbn [env heap emit].
  generalize (cq_from q (cq_khead q) (Z.to_nat (io_uring_cq_ready q))).
  intros cs. revert Hin. generalize (env s).
  induction cs as [|c cs IH]; intros w Hin; cbn [fold_left]; [exact Hin|].
  apply IH. now apply handle_cqe_keeps.
Qed.

(** In the revision, a block whose address has bit 31 set, or more
    generally whose low 32 bits do not exceed 1024 as a [gint], fails the
    release test. *)
Lemma revised_keeps_negative_gint p :
  GPOINTER_TO_INT p <= 1024 -> frees_payload Revised p = false.
Proof.
  intros H. apply not_true_iff_false. rewrite frees_payload_revised. lia.
Qed.

(** C2, the code at the failing input.  The write buffer sits at
    [heap_buffer]; the write and the close complete and one dispatch of the
    revised source drains both entries.  Nothing is in flight any more, and
    the buffer is still allocated: it was never passed to [g_free]. *)
Lemma revised_dispatch_leaks_buffer :
  exists b s',
    io_uring_source_dispatch Revised (Some (on_operation_complete Revised))
                             NULL (completed Revised) = Some (b, s') /\
    cq_visible (cq (ring (uring_source s'))) = [] /\
    kernel (env s') = [] /\
    elements (heap (env s')) = [heap_buffer] /\
    free_count heap_buffer (log (env s')) = 0%nat.
Proof.
  do 2 eexists. split; [vm_compute; reflexivity|].
  repeat split; vm_compute; reflexivity.
Qed.

(** The first revision, on the same run, releases the buffer exactly once. *)
Lemma original_dispatch_frees_buffer :
  exists b s',
    io_uring_source_dispatch Original (Some (on_operation_complete Original))
                             NULL (completed Original) = Some (b, s') /\
    cq_visible (cq (ring (uring_source s'))) = [] /\
    elements (heap (env s')) = [] /\
    free_count heap_buffer (log (env s')) = 1%nat.
Proof.
  do 2 eexists. split; [vm_compute; reflexivity|].
  repeat split; vm_compute; reflexivity.
Qed.



(** Beyond the small descriptors: [open] returned descriptor 2000; the
    entry of the close operation carries it as payload, and the revised
    dispatch passes it to [g_free], against its own comment "Free buffer
    only if user_data is a heap-allocated buffer". *)
Lemma revised_dispatch_frees_large_fd :
  exists b s',
    io_uring_source_dispatch Revised None NULL
      (Kernel.complete wr_ok []
         (snd (submit_write_operation Revised (mk_sys large_fd heap_buffer None)
                                      57 (booted Revised))))
      = Some (b, s') /\
    frees_payload Revised (close_tag Revised large_fd) = true /\
    free_count (close_tag Revised large_fd) (log (env s')) = 1%nat.
Proof.
  do 2 eexists. split; [vm_compute; reflexivity|].
  split; vm_compute; reflexivity.
Qed.

(* ===================================================================== *)
(** ** Prepare and check *)
(* ===================================================================== *)

Lemma cq_visible_nonempty q :
  cq_visible q <> [] <-> io_uring_cq_ready q <> 0.
Proof.
  pose proof (io_uring_cq_ready_range q) as Hr.
  pose proof (cq_visible_length q) as Hl.
  split.
  - intros Hne H0. rewrite H0 in Hl. cbn in Hl.
    now apply nil_length_inv in Hl.
  - intros Hne Hnil. rewrite Hnil in Hl. cbn in Hl. lia.
Qed.

Lemma check_true_iff s :
  fst (io_uring_source_check s) = true <->
  Z.land (revents (poll_fd (uring_source s))) G_IO_IN <> 0.
Proof.
  unfold io_uring_source_check. cbn [fst].
  rewrite negb_true_iff. apply Z.eqb_neq.
Qed.

(** C4 (as amended).  The check neither consumes nor reads the completion
    ring: it leaves the state as it is and reports the source ready if and
    only if the last poll flagged the ring descriptor readable.  Directly
    after a poll of the descriptor that is the case if and only if the
    completion ring is not empty. *)
Theorem check_reports_poll_result s :
  events (poll_fd (uring_source s)) = G_IO_IN ->
  snd (io_uring_source_check s) = s /\
  (fst (io_uring_source_check s) = true <->
     Z.land (revents (poll_fd (uring_source s))) G_IO_IN <> 0) /\
  (fst (io_uring_source_check (Kernel.poll s)) = true <->
     cq_visible (cq (ring (uring_source s))) <> []).
Proof.
  intros Hev. split; [reflexivity|]. split; [apply check_true_iff|].
  rewrite check_true_iff, cq_visible_nonempty.
  unfold Kernel.poll. cbn [uring_source set_revents poll_fd revents].
  rewrite Hev. unfold G_IO_IN.
  destruct (Z.eqb_spec (io_uring_cq_ready (cq (ring (uring_source s)))) 0)
    as [H0|H0].
  - change (Z.land 0 1) with 0. lia.
  - change (Z.land (Z.land 1 1) 1) with 1. lia.
Qed.

Lemma check_reports_poll_result_witness :
  events (poll_fd (uring_source (completed Revised))) = G_IO_IN /\
  fst (io_uring_source_check (Kernel.poll (completed Revised))) = true.
Proof.
  split; [reflexivity|].
  apply (check_reports_poll_result (completed Revised)); [reflexivity|].
  vm_compute. discriminate.
Defined.

(** C4, counterexample.  The poll ran on the empty ring, then the two
    completions of the write arrived: at the time of the check the
    completion ring is not empty, and the check reports not ready. *)
Lemma check_misses_late_completion :
  length (cq_visible (cq (ring (uring_source (late_completion Revised))))) = 2%nat /\
  fst (io_uring_source_check (late_completion Revised)) = false.
Proof. split; vm_compute; reflexivity. Qed.

(** C10.  Prepare always answers not ready and sets the timeout to -1, and
    changes nothing; so the source is found ready in an iteration only by
    its check, that is, only when the poll reported the ring descriptor
    readable. *)
Theorem prepare_never_ready s :
  io_uring_source_prepare s = ((FALSE, -1), s) /\
  (fst (fst (io_uring_source_prepare s)) || fst (io_uring_source_check s) = true <->
     Z.land (revents (poll_fd (uring_source s))) G_IO_IN <> 0).
Proof.
  split; [reflexivity|].
  cbn [io_uring_source_prepare fst FALSE orb]. apply check_true_iff.
Qed.

(* ===================================================================== *)
(** ** Dispatch order of the main context *)
(* ===================================================================== *)

Module ContextFacts.
Import Context.

Lemma insert_by_priority_perm x l :
  Permutation (insert_by_priority x l) (x :: l).
Proof.
  induction l as [|y l IH]; cbn [insert_by_priority]; [reflexivity|].
  destruct (priority x <=? priority y); [reflexivity|].
  rewrite IH. apply perm_swap.
Qed.

Lemma insert_by_priority_sorted x l :
  StronglySorted by_priority l ->
  StronglySorted by_priority (insert_by_priority x l).
Proof.
  induction 1 as [|y l Hs IH Hall]; cbn [insert_by_priority].
  - repeat constructor.
  - destruct (Z.leb_spec (priority x) (priority y)) as [Hle|Hgt].
    + constructor; [now constructor|].
      constructor; [assumption|].
      eapply Forall_impl; [exact Hall|].
      unfold by_priority. intros; lia.
    + constructor; [assumption|].
      rewrite (insert_by_priority_perm x l).
      constructor; [unfold by_priority; lia | assumption].
Qed.

(** Insertion never moves a source across one of the same priority. *)
Lemma insert_by_priority_filter p x l :
  List.filter (has_priority p) (insert_by_priority x l) =
  List.filter (has_priority p) (x :: l).
Proof.
  induction l as [|y l IH]; cbn [insert_by_priority]; [reflexivity|].
  destruct (Z.leb_spec (priority x) (priority y)) as [Hle|Hgt];
    [reflexivity|].
  cbn [List.filter] in *. rewrite IH. unfold has_priority.
  destruct (Z.eqb_spec (priority x) p), (Z.eqb_spec (priority y) p);
    try reflexivity; lia.
Qed.

Lemma sort_by_priority_sorted l :
  StronglySorted by_priority (sort_by_priority l).
Proof.
  induction l; cbn; [constructor | now apply insert_by_priority_sorted].
Qed.

Lemma sort_by_priority_perm l : Permutation (sort_by_priority l) l.
Proof.
  induction l as [|x l IH]; cbn; [reflexivity|].
  rewrite insert_by_priority_perm. now constructor.
Qed.

Lemma sort_by_priority_stable p l :
  List.filter (has_priority p) (sort_by_priority l) =
  List.filter (has_priority p) l.
Proof.
  induction l as [|x l IH]; cbn [sort_by_priority foldr]; [reflexivity|].
  fold (sort_by_priority l). rewrite insert_by_priority_filter.
  cbn [List.filter]. now rewrite IH.
Qed.

(** C5.  The sources dispatched in one iteration are exactly the ready
    ones; they are dispatched in ascending order of priority value, and
    the ready sources of any one priority are dispatched in the order in
    which they were attached. *)
Theorem dispatch_order_by_priority (attached : list Source) :
  StronglySorted by_priority (dispatch_order attached) /\
  Permutation (dispatch_order attached) (List.filter ready attached) /\
  forall p,
    List.filter (has_priority p) (dispatch_order attached) =
    List.filter (has_priority p) (List.filter ready attached).
Proof.
  unfold dispatch_order. split; [apply sort_by_priority_sorted|].
  split; [apply sort_by_priority_perm|].
  intros p. apply sort_by_priority_stable.
Qed.

(** The order [priority_example.c] announces as expected: HIGH, DEFAULT,
    HIGH_IDLE, DEFAULT_IDLE, LOW. *)
Example priority_example_order :
  map src_id (dispatch_order priority_example) = [3; 2; 5; 4; 1]%nat.
Proof. reflexivity. Qed.

(** Three sources of priority 0 attached as A, B, C run as A, B, C. *)
Example equal_priority_fifo :
  map src_id (dispatch_order [mk_src 10 0 true; mk_src 11 0 true; mk_src 12 0 true])
  = [10; 11; 12]%nat.
Proof. reflexivity. Qed.

End ContextFacts.

(* ===================================================================== *)
(** ** Thread-default stack *)
(* ===================================================================== *)

Module ThreadDefaultFacts.
Import ThreadDefault.

Lemma stack_of_insert t l (m : gmap nat (list Z)) :
  stack_of t (<[t := l]> m) = l.
Proof. unfold stack_of. now rewrite lookup_insert_eq. Qed.

Lemma stack_of_insert_ne t t' l (m : gmap nat (list Z)) :
  t <> t' -> stack_of t' (<[t := l]> m) = stack_of t' m.
Proof. intros H. unfold stack_of. now rewrite lookup_insert_ne. Qed.

(** C8.  After [push_default ctx] the current context of the thread is
    [ctx]; the matching [pop_default ctx] succeeds, and afterwards the
    current context of the thread is what it was before the push: the top
    of its stack, or the process-wide default when the stack is empty.
    The other threads see no change at either step. *)
Theorem push_pop_round_trip (global_default : Z) (t : nat) (ctx : Z)
    (m : gmap nat (list Z)) :
  current global_default t (push_default t ctx m) = ctx /\
  (forall t', t' <> t ->
     current global_default t' (push_default t ctx m) =
     current global_default t' m) /\
  exists m',
    pop_default t ctx (push_default t ctx m) = Some m' /\
    stack_of t m' = stack_of t m /\
    forall t', current global_default t' m' = current global_default t' m.
Proof.
  split; [|split].
  - unfold current, push_default. now rewrite stack_of_insert.
  - intros t' Hne. unfold current, push_default.
    now rewrite stack_of_insert_ne by congruence.
  - unfold pop_default, push_default. rewrite stack_of_insert, Z.eqb_refl.
    eexists. split; [reflexivity|]. rewrite insert_insert_eq.
    split; [apply stack_of_insert|].
    intros t'. unfold current. destruct (decide (t = t')) as [->|Hne].
    + now rewrite stack_of_insert.
    + now rewrite stack_of_insert_ne.
Qed.

(** [context_owner_thread]: a fresh thread pushes its context, sees it as
    the thread default, and is back on the global default after the pop. *)
Example context_owner_thread_run :
  let g := 100 in
  let context := 200 in
  let m1 := push_default 7 context ∅ in
  current g 7 ∅ = g /\
  current g 7 m1 = context /\
  (current g 7 <$> pop_default 7 context m1) = Some g.
Proof. repeat split. Qed.

End ThreadDefaultFacts.

(* ===================================================================== *)
(** ** Construction *)
(* ===================================================================== *)

Lemma fresh_source_not_live w : sources w !! fresh_source w = None.
Proof.
  apply not_elem_of_dom. intros Hin.
  apply elem_of_elements in Hin.
  apply max_list_elem_of_le in Hin.
  unfold fresh_source in Hin. lia.
Qed.

(** C7.  When the initialisation of the ring fails, [io_uring_source_new]
    reports the error, drops the only reference of the source it had just
    created, so that no source object is left behind, and returns [NULL];
    [main] then returns 1 without attaching anything or entering the main
    loop, whatever the loop would have done. *)
Theorem ring_init_failure_at_construction
    (g_main_loop_run : state -> state) r init_ret rfd os length_ w :
  init_ret < 0 ->
  fst (io_uring_source_new init_ret rfd w) = None /\
  sources (snd (io_uring_source_new init_ret rfd w)) = sources w /\
  In (EvPrintErr (MsgInitFailed (to_gint (- init_ret))))
     (log (snd (io_uring_source_new init_ret rfd w))) /\
  fst (main g_main_loop_run r init_ret rfd os length_ w) = 1 /\
  forall other_loop,
    main other_loop r init_ret rfd os length_ w =
    main g_main_loop_run r init_ret rfd os length_ w.
Proof.
  intros Hneg.
  assert (Hnew : forall w0,
    io_uring_source_new init_ret rfd w0 =
    (None, io_uring_source_finalize (zero_source (fresh_source w0))
             (g_printerr (MsgInitFailed (to_gint (- init_ret))) w0))).
  { intros w0. unfold io_uring_source_new, g_source_new.
    destruct (Z.ltb_spec init_ret 0) as [_|]; [|lia].
    unfold g_source_unref. cbn [source zero_source sources g_printerr emit set_sources].
    rewrite lookup_insert_eq, delete_insert_id by apply fresh_source_not_live.
    reflexivity. }
  rewrite Hnew. cbn [fst snd]. repeat split.
  - cbn. rewrite !in_app_iff. cbn. auto.
  - unfold main. rewrite Hnew. reflexivity.
  - intros other_loop. unfold main. rewrite Hnew. reflexivity.
Qed.

Lemma ring_init_failure_at_construction_witness :
  -38 < 0 /\
  fst (main (fun s => s) Revised (-38) 3 os_ok 57 initial_world) = 1.
Proof.
  split; [lia|].
  apply (ring_init_failure_at_construction (fun s => s) Revised (-38) 3 os_ok 57
           initial_world). lia.
Defined.

(* ===================================================================== *)
(** ** A full submission ring *)
(* ===================================================================== *)






(* ===================================================================== *)
(** ** Linked entries in the kernel *)
(* ===================================================================== *)

Lemma trace_cons wr ops i rest k :
  fst (Kernel.trace wr ops (i :: rest) k) =
  match Kernel.step wr ops i k with
  | Some (ev, k1) => ev :: fst (Kernel.trace wr ops rest k1)
  | None => fst (Kernel.trace wr ops rest k)
  end.
Proof.
  cbn [Kernel.trace].
  destruct (Kernel.step wr ops i k) as [[ev k1]|]; [|reflexivity].
  destruct (Kernel.trace wr ops rest k1). reflexivity.
Qed.

(** A step completes the entry it was given and no other. *)
Lemma step_other wr ops i st fds ev st' fds' :
  Kernel.step wr ops i (st, fds) = Some (ev, (st', fds')) ->
  Kernel.kev_index ev = i /\ st !! i = Some Kernel.Pending /\
  forall j, j <> i -> st' !! j = st !! j.
Proof.
  unfold Kernel.step. destruct (ops !! i) as [e|]; [|discriminate].
  destruct (Kernel.startable ops st i) eqn:Hs; [|discriminate].
  assert (Hp : st !! i = Some Kernel.Pending).
  { unfold Kernel.startable in Hs.
    destruct (st !! i) as [[|b]|]; congruence. }
  destruct (Kernel.severed ops st i).
  - intros H. injection H as <- <- <-. split; [reflexivity|].
    split; [exact Hp|]. intros j Hj. now apply list_lookup_insert_ne.
  - destruct (Kernel.exec_op wr e fds) as [r0 fds1].
    intros H. injection H as <- <- <-. split; [reflexivity|].
    split; [exact Hp|]. intros j Hj. now apply list_lookup_insert_ne.
Qed.

(** A completed entry does not complete again. *)
Lemma trace_done wr ops j b : forall sched st fds,
  st !! j = Some (Kernel.Done b) ->
  forall n ev, fst (Kernel.trace wr ops sched (st, fds)) !! n = Some ev ->
    Kernel.kev_index ev <> j.
Proof.
  induction sched as [|i sched IH]; intros st fds Hj n ev Hn; [discriminate|].
  rewrite trace_cons in Hn.
  destruct (Kernel.step wr ops i (st, fds)) as [[ev0 [st' fds']]|] eqn:Hs;
    [|exact (IH st fds Hj n ev Hn)].
  destruct (step_other _ _ _ _ _ _ _ _ Hs) as (Hi & Hp & Hst).
  assert (Hne : j <> i) by congruence.
  destruct n as [|n].
  - injection Hn as <-. congruence.
  - apply (IH st' fds' (eq_trans (Hst j Hne) Hj) n ev Hn).
Qed.

(** The entry behind a completed linked one: it is run if that one
    succeeded and cancelled if not. *)
Lemma trace_successor wr ops k e1 e2 ok :
  ops !! k = Some e1 -> Kernel.linked e1 = true -> ops !! S k = Some e2 ->
  forall sched st fds,
  st !! k = Some (Kernel.Done ok) -> st !! S k = Some Kernel.Pending ->
  forall n ev2,
    fst (Kernel.trace wr ops sched (st, fds)) !! n = Some ev2 ->
    Kernel.kev_index ev2 = S k ->
    Kernel.kev_ran ev2 = ok /\
    (Kernel.kev_ran ev2 = true ->
       (Kernel.kev_res ev2, Kernel.kev_after ev2)
       = Kernel.exec_op wr e2 (Kernel.kev_before ev2)) /\
    (Kernel.kev_ran ev2 = false ->
       Kernel.kev_res ev2 = - ECANCELED /\
       Kernel.kev_after ev2 = Kernel.kev_before ev2).
Proof.
  intros H1 Hl H2.
  induction sched as [|i sched IH]; intros st fds Hk HSk n ev2 Hn Hidx;
    [discriminate|].
  rewrite trace_cons in Hn.
  destruct (Kernel.step wr ops i (st, fds)) as [[ev0 [st' fds']]|] eqn:Hs;
    [|exact (IH st fds Hk HSk n ev2 Hn Hidx)].
  destruct (step_other _ _ _ _ _ _ _ _ Hs) as (Hi & Hp & Hst).
  destruct (decide (i = S k)) as [->|Hne].
  - assert (Hdone : exists b, st' !! S k = Some (Kernel.Done b) /\
        Kernel.kev_ran ev0 = ok /\
        (Kernel.kev_ran ev0 = true ->
           (Kernel.kev_res ev0, Kernel.kev_after ev0)
           = Kernel.exec_op wr e2 (Kernel.kev_before ev0)) /\
        (Kernel.kev_ran ev0 = false ->
           Kernel.kev_res ev0 = - ECANCELED /\
           Kernel.kev_after ev0 = Kernel.kev_before ev0)).
    { unfold Kernel.step in Hs. rewrite H2 in Hs.
      destruct (Kernel.startable ops st (S k)); [|discriminate].
      unfold Kernel.severed in Hs. rewrite H1, Hk, Hl in Hs.
      assert (Hlen : (S k < length st)%nat) by (eapply lookup_lt_Some; eassumption).
      destruct ok.
      - destruct (Kernel.exec_op wr e2 fds) as [r0 fds1] eqn:He.
        injection Hs as <- <- <-. eexists. split.
        + apply list_lookup_insert_eq. exact Hlen.
        + cbn. split; [reflexivity|]. split; [intros _; now rewrite He|discriminate].
      - injection Hs as <- <- <-. eexists. split.
        + apply list_lookup_insert_eq. exact Hlen.
        + cbn. split; [reflexivity|]. split; [discriminate|auto]. }
    destruct Hdone as (b & Hb & Hprops).
    destruct n as [|n].
    + injection Hn as <-. exact Hprops.
    + exfalso. exact (trace_done wr ops (S k) b sched st' fds' Hb n ev2 Hn Hidx).
  - assert (Hik : i <> k) by (intros ->; congruence).
    destruct n as [|n].
    + injection Hn as <-. congruence.
    + apply (IH st' fds') with (n := n); try assumption.
      * rewrite Hst by congruence. exact Hk.
      * rewrite Hst by congruence. exact HSk.
Qed.

(** A linked entry and the entry behind it, both waiting.  However the
    kernel orders its work, the second completes after the first; it is
    executed exactly when the first was executed and did not fail, and is
    cancelled otherwise. *)
Lemma trace_linked_pair wr ops k e1 e2 :
  ops !! k = Some e1 -> Kernel.linked e1 = true -> ops !! S k = Some e2 ->
  forall sched st fds,
  st !! k = Some Kernel.Pending -> st !! S k = Some Kernel.Pending ->
  forall n ev2,
    fst (Kernel.trace wr ops sched (st, fds)) !! n = Some ev2 ->
    Kernel.kev_index ev2 = S k ->
    exists m ev1,
      (m < n)%nat /\
      fst (Kernel.trace wr ops sched (st, fds)) !! m = Some ev1 /\
      Kernel.kev_index ev1 = k /\
      Kernel.kev_ran ev2
        = Kernel.kev_ran ev1 && negb (Kernel.failed e1 (Kernel.kev_res ev1)) /\
      (Kernel.kev_ran ev1 = true ->
         (Kernel.kev_res ev1, Kernel.kev_after ev1)
         = Kernel.exec_op wr e1 (Kernel.kev_before ev1)) /\
      (Kernel.kev_ran ev2 = true ->
         (Kernel.kev_res ev2, Kernel.kev_after ev2)
         = Kernel.exec_op wr e2 (Kernel.kev_before ev2)) /\
      (Kernel.kev_ran ev2 = false ->
         Kernel.kev_res ev2 = - ECANCELED /\
         Kernel.kev_after ev2 = Kernel.kev_before ev2).
Proof.
  intros H1 Hl H2.
  induction sched as [|i sched IH]; intros st fds Hk HSk n ev2 Hn Hidx;
    [discriminate|].
  rewrite trace_cons in Hn. rewrite trace_cons.
  destruct (Kernel.step wr ops i (st, fds)) as [[ev0 [st' fds']]|] eqn:Hs;
    [|exact (IH st fds Hk HSk n ev2 Hn Hidx)].
  destruct (step_other _ _ _ _ _ _ _ _ Hs) as (Hi & Hp & Hst).
  destruct (decide (i = S k)) as [->|Hne].
  { exfalso. unfold Kernel.step in Hs. rewrite H2 in Hs.
    unfold Kernel.startable in Hs. rewrite HSk, H1, Hk, Hl in Hs. discriminate. }
  destruct n as [|n]; [injection Hn as <-; congruence|].
  destruct (decide (i = k)) as [->|Hnk].
  - assert (Hdone : st' !! k
        = Some (Kernel.Done (Kernel.kev_ran ev0
                             && negb (Kernel.failed e1 (Kernel.kev_res ev0)))) /\
        (Kernel.kev_ran ev0 = true ->
           (Kernel.kev_res ev0, Kernel.kev_after ev0)
           = Kernel.exec_op wr e1 (Kernel.kev_before ev0))).
    { unfold Kernel.step in Hs. rewrite H1 in Hs.
      destruct (Kernel.startable ops st k); [|discriminate].
      assert (Hlen : (k < length st)%nat) by (eapply lookup_lt_Some; eassumption).
      destruct (Kernel.severed ops st k).
      - injection Hs as <- <- <-. cbn. split; [|discriminate].
        apply list_lookup_insert_eq. exact Hlen.
      - destruct (Kernel.exec_op wr e1 fds) as [r0 fds1] eqn:He.
        injection Hs as <- <- <-. cbn. split; [|intros _; now rewrite He].
        apply list_lookup_insert_eq. exact Hlen. }
    destruct Hdone as (Hk' & Hex).
    assert (HSk' : st' !! S k = Some Kernel.Pending)
      by (rewrite Hst by lia; exact HSk).
    destruct (trace_successor wr ops k e1 e2 _ H1 Hl H2 sched st' fds'
                Hk' HSk' n ev2 Hn Hidx) as (Hran & Hrun & Hcan).
    exists 0%nat, ev0. split; [lia|]. split; [reflexivity|].
    split; [exact Hi|]. split; [exact Hran|]. auto.
  - destruct (IH st' fds') with (n := n) (ev2 := ev2)
      as (m & ev1 & Hm & Hlk & Hrest); try assumption.
    + rewrite Hst by congruence. exact Hk.
    + rewrite Hst by congruence. exact HSk.
    + exists (S m), ev1. split; [lia|]. split; [exact Hlk|exact Hrest].
Qed.

(** The link flag is what orders the pair: with it the write completes
    first whatever the kernel picks; without it the close may be run
    first, and the write then finds the descriptor closed. *)
Lemma link_flag_orders_the_pair :
  let W := write_sqe 4 heap_buffer 57 in
  let C := close_sqe Revised 4 in
  let start := ([Kernel.Pending; Kernel.Pending], {[4]} : gset Z) in
  map (fun ev => (Kernel.kev_index ev, Kernel.kev_res ev))
      (fst (Kernel.trace wr_ok [W; C] [1; 0; 1]%nat start))
    = [(0%nat, 57); (1%nat, 0)] /\
  map (fun ev => (Kernel.kev_index ev, Kernel.kev_res ev))
      (fst (Kernel.trace wr_ok [Kernel.unlink W; C] [1; 0; 1]%nat start))
    = [(1%nat, 0); (0%nat, - EBADF)].
Proof. split; vm_compute; reflexivity. Qed.

(** C3, counterexample.  The write fails for lack of space; the close that
    follows it in the chain completes with [-ECANCELED] and was not
    attempted: descriptor 4 is still open. *)
Lemma failed_write_cancels_close :
  cq_visible (cq (ring (uring_source (failed_write Revised)))) =
    [mk_cqe heap_buffer (-28); mk_cqe 4 (- ECANCELED)] /\
  bool_decide (4 ∈ open_fds (env (failed_write Revised))) = true.
Proof. split; vm_compute; reflexivity. Qed.

(* ===================================================================== *)
(** ** More about dispatch *)
(* ===================================================================== *)

Lemma free_count_app p l1 l2 :
  free_count p (l1 ++ l2) = (free_count p l1 + free_count p l2)%nat.
Proof. unfold free_count. now rewrite List.filter_app, length_app. Qed.

Lemma quit_count_app l1 l2 :
  quit_count (l1 ++ l2) = (quit_count l1 + quit_count l2)%nat.
Proof. unfold quit_count. now rewrite List.filter_app, length_app. Qed.

Lemma free_count_cqe_events r p cs :
  free_count p (flat_map (cqe_events r) cs) =
  if frees_payload r p then payload_count p cs else 0%nat.
Proof.
  induction cs as [|c cs IH]; cbn [flat_map].
  - now destruct (frees_payload r p).
  - rewrite free_count_app, IH. unfold payload_count. cbn [List.filter].
    unfold cqe_events.
    destruct (Z.eqb_spec (io_uring_cqe_get_data c) p) as [->|Hne].
    + destruct (frees_payload r p); cbn; [|reflexivity].
      unfold free_count. cbn. now rewrite Z.eqb_refl.
    + destruct (frees_payload r (io_uring_cqe_get_data c)),
               (frees_payload r p); cbn; try reflexivity;
        unfold free_count; cbn;
        destruct (Z.eqb_spec (io_uring_cqe_get_data c) p); try reflexivity;
        contradiction.
Qed.

(** X1.  One dispatch passes a payload to [g_free] once for every drained
    entry that carries it, provided the payload passes the release test of
    the revision, and never otherwise: nothing is freed that was not in the
    ring. *)
Theorem dispatch_free_count r s p :
  let q := cq (ring (uring_source s)) in
  cq_wf q ->
  exists s',
    drain r s = Some s' /\
    free_count p (log (env s')) =
      (free_count p (log (env s))
       + if frees_payload r p then payload_count p (cq_visible q) else 0)%nat.
Proof.
  intros q Hwf.
  destruct (drain_spec r s Hwf) as (s' & Hd & Hlog & _).
  exists s'. split; [exact Hd|].
  rewrite Hlog, !free_count_app, free_count_cqe_events. fold q.
  cbn. lia.
Qed.

Lemma dispatch_free_count_witness :
  exists s',
    drain Original (completed Original) = Some s' /\
    free_count heap_buffer (log (env s')) = 1%nat.
Proof.
  destruct (dispatch_free_count Original (completed Original) heap_buffer
              (completed_cq_wf Original)) as (s' & Hd & Hc).
  exists s'. split; [exact Hd|]. rewrite Hc. reflexivity.
Defined.

Lemma callback_count_cqe_events r cs :
  callback_count (flat_map (cqe_events r) cs) = 0%nat.
Proof.
  induction cs as [|c cs IH]; [reflexivity|].
  cbn [flat_map]. rewrite callback_count_app, IH.
  unfold cqe_events, report_result.
  destruct (frees_payload r (io_uring_cqe_get_data c)), (res c <? 0);
    reflexivity.
Qed.

(** What the loop leaves alone, entry by entry. *)
Lemma handle_cqe_frame r c w :
  open_fds (handle_cqe r c w) = open_fds w /\
  kernel (handle_cqe r c w) = kernel w /\
  sources (handle_cqe r c w) = sources w /\
  completion_state (handle_cqe r c w) = completion_state w /\
  heap (handle_cqe r c w) ⊆ heap w.
Proof.
  unfold handle_cqe.
  destruct (frees_payload r (io_uring_cqe_get_data c)); cbn;
    repeat split; try reflexivity.
  intros x Hx. apply elem_of_difference in Hx. tauto.
Qed.

Lemma fold_handle_cqe_frame r cs : forall w,
  let w' := fold_left (fun w c => handle_cqe r c w) cs w in
  open_fds w' = open_fds w /\
  kernel w' = kernel w /\
  sources w' = sources w /\
  completion_state w' = completion_state w /\
  heap w' ⊆ heap w.
Proof.
  induction cs as [|c cs IH]; intros w; cbn [fold_left].
  - repeat split. reflexivity.
  - destruct (IH (handle_cqe r c w)) as (H1 & H2 & H3 & H4 & H5).
    destruct (handle_cqe_frame r c w) as (G1 & G2 & G3 & G4 & G5).
    cbn zeta. repeat split; try congruence.
    etransitivity; [exact H5 | exact G5].
Qed.

(** The state [drain] reaches, spelled out. *)
Lemma drain_eq r s :
  let q := cq (ring (uring_source s)) in
  cq_wf q ->
  drain r s =
    Some (mk_state
            (set_cq (io_uring_cq_advance q (io_uring_cq_ready q)) (uring_source s))
            (emit (EvCqAdvance (io_uring_cq_ready q))
                  (fold_left (fun w c => handle_cqe r c w) (cq_visible q) (env s)))).
Proof.
  intros q [_ _ _ Hh Ht _].
  pose proof (io_uring_cq_ready_range q) as Hr.
  unfold drain. fold q.
  rewrite (for_each_cqe_spec r q (Z.to_nat (io_uring_cq_ready q)));
    try assumption; try lia.
  2: { rewrite Z2Nat.id by lia. reflexivity. }
  rewrite Z.add_0_l, Z2Nat.id, to_uint_small by lia. reflexivity.
Qed.

(** X2.  A dispatch touches nothing but the completion cursor, the heap
    and the log: it closes no descriptor (the descriptor named by a close
    entry included), leaves the submission ring, the poll record, the
    entries held by the kernel and the reference counts as they are, and it
    allocates nothing. *)
Theorem dispatch_frame r s :
  let q := cq (ring (uring_source s)) in
  cq_wf q ->
  exists s',
    drain r s = Some s' /\
    open_fds (env s') = open_fds (env s) /\
    kernel (env s') = kernel (env s) /\
    sources (env s') = sources (env s) /\
    completion_state (env s') = completion_state (env s) /\
    heap (env s') ⊆ heap (env s) /\
    sq (ring (uring_source s')) = sq (ring (uring_source s)) /\
    poll_fd (uring_source s') = poll_fd (uring_source s) /\
    cqes (cq (ring (uring_source s'))) = cqes q /\
    cq_ktail (cq (ring (uring_source s'))) = cq_ktail q.
Proof.
  intros q Hwf. eexists. split; [apply drain_eq; exact Hwf|]. fold q.
  destruct (fold_handle_cqe_frame r (cq_visible q) (env s))
    as (H1 & H2 & H3 & H4 & H5).
  cbn [env uring_source emit open_fds kernel sources completion_state heap
       set_cq set_ring ring sq poll_fd cq].
  repeat split; try assumption;
    unfold io_uring_cq_advance; destruct (_ =? 0); reflexivity.
Qed.

Lemma dispatch_frame_witness :
  exists s',
    drain Revised (completed Revised) = Some s' /\
    open_fds (env s') = open_fds (env (completed Revised)).
Proof.
  destruct (dispatch_frame Revised (completed Revised) (completed_cq_wf Revised))
    as (s' & Hd & Hf & _).
  exists s'. split; assumption.
Defined.

(** X3.  Dispatched on an empty completion ring, the source handles no
    entry, frees nothing and leaves both rings as they are; the callback is
    called all the same, once. *)
Theorem dispatch_empty_ring r callback ud s :
  let q := cq (ring (uring_source s)) in
  cq_wf q -> cq_khead q = cq_ktail q ->
  exists s',
    io_uring_source_dispatch r callback ud s =
      Some (match callback with
            | Some f => f ud s'
            | None => (G_SOURCE_CONTINUE, s')
            end) /\
    uring_source s' = uring_source s /\
    env s' = emit (EvCqAdvance 0) (env s).
Proof.
  intros q Hwf Hempty.
  unfold io_uring_source_dispatch. rewrite drain_eq by exact Hwf. fold q.
  assert (Hr : io_uring_cq_ready q = 0).
  { unfold io_uring_cq_ready. rewrite Hempty, Z.sub_diag. reflexivity. }
  rewrite (cq_visible_empty q Hempty), Hr. cbn [fold_left].
  eexists. split; [destruct callback; reflexivity|].
  cbn [uring_source env]. split; [|reflexivity].
  unfold io_uring_cq_advance, set_cq, set_ring. cbn [Z.eqb].
  subst q. destruct (uring_source s) as [id [qs qc rfd] pfd]. reflexivity.
Qed.

Lemma dispatch_empty_ring_witness :
  exists s',
    io_uring_source_dispatch Revised (Some (on_operation_complete Revised)) NULL
                             (booted Revised)
      = Some (on_operation_complete Revised NULL s') /\
    uring_source s' = uring_source (booted Revised).
Proof.
  assert (Hwf : cq_wf (cq (ring (uring_source (booted Revised))))).
  { constructor; [exists 4; split; [lia|reflexivity] | reflexivity..
                 | vm_compute; split; congruence
                 | vm_compute; split; congruence
                 | vm_compute; congruence]. }
  destruct (dispatch_empty_ring Revised (Some (on_operation_complete Revised))
              NULL (booted Revised) Hwf eq_refl) as (s' & Hd & Hu & _).
  exists s'. split; assumption.
Defined.

(* ===================================================================== *)
(** ** The completion callback *)
(* ===================================================================== *)

(** The number of completions the callback waits for. *)
Lemma on_operation_complete_step r ud s :
  let cs := completion_state (env s) in
  let n := to_gint (completed_count cs + 1) in
  let e := match r with
           | Original => 2
           | Revised => expected_completions cs
           end in
  let res := on_operation_complete r ud s in
  completion_state (env (snd res)) = mk_completion (expected_completions cs) n /\
  uring_source (snd res) = uring_source s /\
  fst res = negb (e <=? n) /\
  callback_count (log (env (snd res))) = S (callback_count (log (env s))) /\
  quit_count (log (env (snd res))) =
    (quit_count (log (env s)) + if (e <=? n)%Z then 1 else 0)%nat.
Proof.
  intros cs n e res. unfold res, on_operation_complete. fold cs. fold n. fold e.
  destruct (e <=? n); cbn [fst snd env uring_source negb];
    unfold g_print; rewrite ?log_emit; cbn [emit log completion_state
      set_completion_state];
    rewrite ?callback_count_app, ?quit_count_app; cbn; repeat split; lia.
Qed.

(** X4.  One dispatch counts one completion, however many entries it
    drained: with [on_operation_complete] as callback, [completed_count]
    goes up by exactly one and one "[Callback]" line is printed. *)
Theorem dispatch_counts_one_completion r ud s :
  let q := cq (ring (uring_source s)) in
  cq_wf q ->
  exists b s',
    io_uring_source_dispatch r (Some (on_operation_complete r)) ud s
      = Some (b, s') /\
    completed_count (completion_state (env s')) =
      to_gint (completed_count (completion_state (env s)) + 1) /\
    callback_count (log (env s')) = S (callback_count (log (env s))).
Proof.
  intros q Hwf.
  destruct (drain_spec r s Hwf) as (sd & Hd & Hlog & _).
  destruct (dispatch_frame r s Hwf) as (sd' & Hd' & _ & _ & _ & Hcs & _).
  rewrite Hd in Hd'. injection Hd' as <-.
  unfold io_uring_source_dispatch. rewrite Hd.
  destruct (on_operation_complete_step r ud sd) as (H1 & _ & _ & H4 & _).
  destruct (on_operation_complete r ud sd) as [b s'] eqn:Hcb.
  cbn [fst snd] in *. exists b, s'. split; [reflexivity|].
  rewrite H1, H4, Hcs, Hlog. cbn [completed_count]. split; [reflexivity|].
  rewrite !callback_count_app, callback_count_cqe_events. cbn. lia.
Qed.

Lemma dispatch_counts_one_completion_witness :
  length (cq_visible (cq (ring (uring_source (completed Revised))))) = 2%nat /\
  exists b s',
    io_uring_source_dispatch Revised (Some (on_operation_complete Revised)) NULL
                             (completed Revised) = Some (b, s') /\
    completed_count (completion_state (env s')) = 1.
Proof.
  split; [reflexivity|].
  destruct (dispatch_counts_one_completion Revised NULL (completed Revised)
              (completed_cq_wf Revised)) as (b & s' & Hd & Hc & _).
  exists b, s'. split; [exact Hd|]. rewrite Hc. reflexivity.
Defined.

(** X5.  Called once per dispatch, [on_operation_complete] keeps the
    source ([G_SOURCE_CONTINUE]) and leaves the loop running until the call
    that brings [completed_count] to the expected number (2 in the first
    revision, [expected_completions] in the second); that call, and none
    before it, quits the main loop and removes the source. *)
Theorem on_operation_complete_quits_at_expected r ud n : forall s,
  let cs := completion_state (env s) in
  let e := match r with
           | Original => 2
           | Revised => expected_completions cs
           end in
  0 <= completed_count cs ->
  completed_count cs + Z.of_nat n + 1 = e ->
  e < 2 ^ 31 ->
  let before := callbacks n (on_operation_complete r) ud s in
  let last := on_operation_complete r ud (snd before) in
  fst before = repeat G_SOURCE_CONTINUE n /\
  quit_count (log (env (snd before))) = quit_count (log (env s)) /\
  fst last = G_SOURCE_REMOVE /\
  quit_count (log (env (snd last))) = S (quit_count (log (env s))).
Proof.
  induction n as [|n IH]; intros s cs e Hc He Hlt before last.
  - unfold last, before. cbn [callbacks fst snd repeat].
    destruct (on_operation_complete_step r ud s) as (_ & _ & Hb & _ & Hq).
    fold cs in Hb, Hq. fold e in Hb, Hq.
    rewrite to_gint_small in Hb, Hq by lia.
    destruct (Z.leb_spec e (completed_count cs + 1)) as [_|]; [|lia].
    repeat split; [exact Hb | rewrite Hq; lia].
  - destruct (on_operation_complete_step r ud s) as (Hs & _ & Hb & _ & Hq).
    fold cs in Hs, Hb, Hq. fold e in Hb, Hq.
    rewrite to_gint_small in Hs, Hb, Hq by lia.
    destruct (Z.leb_spec e (completed_count cs + 1)) as [|_]; [lia|].
    unfold last, before. cbn [callbacks].
    destruct (on_operation_complete r ud s) as [b s1] eqn:Hcall.
    cbn [fst snd] in Hs, Hb, Hq.
    specialize (IH s1). rewrite Hs in IH. cbn [completed_count expected_completions] in IH.
    destruct IH as (I1 & I2 & I3 & I4); try lia.
    destruct (callbacks n (on_operation_complete r) ud s1) as [bs s2].
    cbn [fst snd repeat] in *. subst b.
    repeat split; [now rewrite I1 | lia | exact I3 | lia].
Qed.

Lemma on_operation_complete_quits_at_expected_witness :
  fst (callbacks 1 (on_operation_complete Revised) NULL (booted Revised))
    = [G_SOURCE_CONTINUE] /\
  fst (on_operation_complete Revised NULL
         (snd (callbacks 1 (on_operation_complete Revised) NULL (booted Revised))))
    = G_SOURCE_REMOVE.
Proof.
  destruct (on_operation_complete_quits_at_expected Revised NULL 1 (booted Revised))
    as (H1 & _ & H3 & _); [vm_compute; congruence | reflexivity | reflexivity |].
  split; assumption.
Defined.

(* ===================================================================== *)
(** ** The submission ring *)
(* ===================================================================== *)

Lemma write_entry old fd_ buffer length_ :
  sqe_or_flags (io_uring_sqe_set_data
                  (io_uring_prep_write old fd_ buffer length_ 0) buffer)
               IOSQE_IO_LINK
  = write_sqe fd_ buffer length_.
Proof. reflexivity. Qed.

Lemma close_entry r old fd_ :
  io_uring_sqe_set_data (io_uring_prep_close old fd_) (close_tag r fd_)
  = close_sqe r fd_.
Proof. reflexivity. Qed.

Lemma sq_prepared_snoc_aux (f : Z -> io_uring_sqe) n :
  map (fun i => f (Z.of_nat i)) (seq 0 (S n)) =
  map (fun i => f (Z.of_nat i)) (seq 0 n) ++ [f (Z.of_nat n)].
Proof. rewrite seq_S, map_app. reflexivity. Qed.

(** The test of [io_uring_get_sqe], in terms of free slots. *)
Lemma get_sqe_distance q :
  sq_wf q ->
  to_uint (to_uint (sqe_tail q + 1) - sq_khead q) =
  to_uint (sqe_tail q - sq_khead q) + 1.
Proof.
  intros [(k & Hk & Hpow) _ _ Hh Ht Hroom].
  assert (Hle : 2 ^ k <= 2 ^ 30) by (apply Z.pow_le_mono_r; lia).
  rewrite Hpow in Hroom. unfold to_uint in *.
  change (2 ^ 32) with 4294967296 in *. change (2 ^ 30) with 1073741824 in *.
  Z.div_mod_to_equations. lia.
Qed.

Lemma get_sqe_none q :
  sq_wf q -> sq_free q <= 0 -> io_uring_get_sqe q = (None, q).
Proof.
  intros Hwf Hfree. unfold io_uring_get_sqe.
  rewrite get_sqe_distance by exact Hwf. unfold sq_free in Hfree.
  destruct (Z.leb_spec (to_uint (sqe_tail q - sq_khead q) + 1)
                       (sq_ring_entries q)); [lia | reflexivity].
Qed.

(** A free slot is handed out and filled: the entry joins the prepared
    ones at the young end, and the ring keeps its shape. *)
Lemma sq_push q :
  sq_wf q -> 1 <= sq_free q ->
  exists i q1,
    io_uring_get_sqe q = (Some i, q1) /\
    forall e,
      let q2 := set_sqe i e q1 in
      sq_prepared q2 = sq_prepared q ++ [e] /\
      sq_wf q2 /\
      sq_free q2 = sq_free q - 1 /\
      sq_khead q2 = sq_khead q /\
      sq_ktail q2 = sq_ktail q /\
      sqe_head q2 = sqe_head q /\
      sq_ring_entries q2 = sq_ring_entries q /\
      sqe_tail q2 = to_uint (sqe_tail q + 1).
Proof.
  intros Hwf Hfree.
  pose proof (get_sqe_distance q Hwf) as Hdist.
  destruct Hwf as [(k & Hk & Hpow) Hmask Hlen Hh Ht Hroom].
  assert (Hpos : 0 < 2 ^ k) by (apply Z.pow_pos_nonneg; lia).
  assert (Hle : 2 ^ k <= 2 ^ 30) by (apply Z.pow_le_mono_r; lia).
  pose proof (to_uint_range (sqe_tail q - sq_khead q)) as Hr.
  unfold sq_free in Hfree.
  unfold io_uring_get_sqe. rewrite Hdist.
  destruct (Z.leb_spec (to_uint (sqe_tail q - sq_khead q) + 1)
                       (sq_ring_entries q)) as [_|]; [|lia].
  do 2 eexists. split; [reflexivity|]. intros e.
  set (q2 := set_sqe _ e _).
  split; [|split; [|split; [|split; [|split; [|split; [|split]]]]]];
    try reflexivity.
  - unfold sq_prepared, q2, set_sqe.
    cbn [sqe_tail sq_khead sq_ring_mask]. rewrite Hdist.
    replace (Z.to_nat (to_uint (sqe_tail q - sq_khead q) + 1))
      with (S (Z.to_nat (to_uint (sqe_tail q - sq_khead q)))) by lia.
    rewrite seq_S, map_app. cbn [map]. f_equal.
    + apply map_ext_in. intros j Hj. apply in_seq in Hj.
      unfold get_sqe_slot. cbn [sqes]. rewrite Hmask, Hpow.
      rewrite list_lookup_insert_ne; [reflexivity|].
      apply not_eq_sym.
      apply (slot_distinct _ _ k (to_uint (sqe_tail q - sq_khead q) - Z.of_nat j));
        try lia.
      rewrite to_uint_sub_r.
      unfold to_uint in *. change (2 ^ 32) with 4294967296 in *.
      Z.div_mod_to_equations. lia.
    + rewrite Nat.add_0_l, Z2Nat.id by lia.
      rewrite cursor_catch_up by assumption.
      unfold get_sqe_slot. cbn [sqes].
      rewrite list_lookup_insert_eq; [reflexivity|].
      rewrite Hlen, Hmask, Hpow. apply slot_in_ring. lia.
  - constructor; unfold q2, set_sqe;
      cbn [sq_ring_entries sq_ring_mask sqes sq_khead sqe_tail].
    + exists k. auto.
    + assumption.
    + now rewrite length_insert.
    + assumption.
    + apply to_uint_range.
    + rewrite Hdist. lia.
  - unfold sq_free, q2, set_sqe. cbn [sqe_tail sq_khead sq_ring_entries].
    rewrite Hdist. lia.
Qed.

(** With everything published, what the kernel may take is what was
    prepared. *)
Lemma sq_pending_prepared q :
  sq_ktail q = sqe_tail q -> Kernel.sq_pending q = sq_prepared q.
Proof. intros H. unfold Kernel.sq_pending, sq_prepared. now rewrite H. Qed.

Lemma gset_add_remove (X : gset Z) x : x ∉ X -> ({[x]} ∪ X) ∖ {[x]} = X.
Proof.
  intros Hx. apply set_eq. intros y.
  rewrite elem_of_difference, elem_of_union, !elem_of_singleton.
  split; [tauto|]. intros Hy. split; [tauto|]. intros ->. contradiction.
Qed.

Lemma gset_remove_twice (X : gset Z) x : (X ∖ {[x]}) ∖ {[x]} = X ∖ {[x]}.
Proof.
  apply set_eq. intros y. rewrite !elem_of_difference. tauto.
Qed.

Lemma sq_prepared_publish q : sq_prepared (sq_publish q) = sq_prepared q.
Proof. reflexivity. Qed.

Lemma end_chain_snoc l e :
  Kernel.end_chain (l ++ [e]) = l ++ [Kernel.unlink e].
Proof.
  induction l as [|a l IH]; [reflexivity|].
  cbn [app Kernel.end_chain]. rewrite IH.
  destruct l; reflexivity.
Qed.

Lemma unlink_close r fd_ : Kernel.unlink (close_sqe r fd_) = close_sqe r fd_.
Proof. reflexivity. Qed.

Lemma sq_prepared_length q :
  Z.of_nat (length (sq_prepared q)) = to_uint (sqe_tail q - sq_khead q).
Proof.
  unfold sq_prepared. rewrite length_map, length_seq.
  pose proof (to_uint_range (sqe_tail q - sq_khead q)). lia.
Qed.

(** [io_uring_submit] when something was prepared since the last call. *)
Lemma io_uring_submit_spec err u w :
  let q := sq (ring u) in
  sq_wf q -> sqe_head q <> sqe_tail q ->
  1 <= to_uint (sqe_tail q - sq_khead q) ->
  io_uring_submit err (mk_state u w) =
    match err with
    | Some e => (- e, mk_state (set_sq (sq_publish q) u) w)
    | None =>
        (to_uint (sqe_tail q - sq_khead q),
         mk_state (set_sq (sq_take (sq_publish q)) u)
                  (set_kernel (kernel w ++ Kernel.end_chain (sq_prepared q)) w))
    end.
Proof.
  intros q Hwf Hdirty Hn.
  destruct Hwf as [(k & Hk & Hpow) _ _ _ _ Hroom].
  assert (Hle : 2 ^ k <= 2 ^ 30) by (apply Z.pow_le_mono_r; lia).
  unfold io_uring_submit, io_uring_flush_sq. cbn [uring_source env]. fold q.
  destruct (Z.eqb_spec (sqe_head q) (sqe_tail q)) as [|_]; [contradiction|].
  destruct (Z.eqb_spec (to_uint (sqe_tail q - sq_khead q)) 0) as [|_]; [lia|].
  destruct err as [e|]; [destruct u as [id [qs qc rfd] pfd]; reflexivity|].
  rewrite to_gint_small by (change (2 ^ 30) with 1073741824 in Hle; lia).
  unfold Kernel.take. cbn [uring_source env set_sq set_ring ring sq].
  rewrite sq_pending_prepared by reflexivity.
  destruct u as [id [qs qc rfd] pfd]. reflexivity.
Qed.

(** The submission that queues both entries, in full. *)
Lemma submit_two_slots_spec r os length_ s :
  let q := sq (ring (uring_source s)) in
  sq_wf q -> sq_flushed q -> 2 <= sq_free q ->
  0 <= open_ret os -> enter_err os = None ->
  let s' := snd (submit_write_operation r os length_ s) in
  fst (submit_write_operation r os length_ s) = TRUE /\
  kernel (env s') =
    kernel (env s) ++ sq_prepared q
      ++ [write_sqe (open_ret os) (strdup_ret os) length_;
          close_sqe r (open_ret os)] /\
  sq_prepared (sq (ring (uring_source s'))) = [] /\
  log (env s') =
    log (env s)
      ++ [EvPrint (MsgOpening (open_ret os)); EvPrint (MsgPrepared length_);
          EvPrint (MsgSubmitted (Z.of_nat (length (sq_prepared q)) + 2))] /\
  heap (env s') = {[strdup_ret os]} ∪ heap (env s).
Proof.
  intros q Hwf [Hkt Hpub Hhead _] Hfree Hopen Henter s'.
  unfold s', submit_write_operation. fold q.
  destruct (Z.ltb_spec (open_ret os) 0) as [|_]; [lia|].
  destruct (sq_push q Hwf) as (i & q1 & Hg1 & Hp1); [lia|].
  rewrite Hg1, write_entry.
  specialize (Hp1 (write_sqe (open_ret os) (strdup_ret os) length_)).
  cbn zeta in Hp1. set (q2 := set_sqe i _ q1) in *.
  destruct Hp1 as (Hpre2 & Hwf2 & Hfree2 & Hkh2 & _ & Hsh2 & Hent2 & Hst2).
  destruct (sq_push q2 Hwf2) as (j & q2' & Hg2 & Hp2); [lia|].
  rewrite Hg2, close_entry.
  specialize (Hp2 (close_sqe r (open_ret os))).
  cbn zeta in Hp2. set (q3 := set_sqe j _ q2') in *.
  destruct Hp2 as (Hpre3 & Hwf3 & Hfree3 & Hkh3 & _ & Hsh3 & Hent3 & Hst3).
  assert (Hn : to_uint (sqe_tail q3 - sq_khead q3) =
               to_uint (sqe_tail q - sq_khead q) + 2).
  { unfold sq_free in Hfree3, Hfree2. lia. }
  pose proof (to_uint_range (sqe_tail q - sq_khead q)) as Hr.
  assert (Hdirty : sqe_head q3 <> sqe_tail q3).
  { rewrite Hsh3, Hsh2, Hhead, <- Hpub. intros Heq.
    rewrite <- Heq, Hkh3, Hkh2 in Hn. lia. }
  rewrite (io_uring_submit_spec (enter_err os) (set_sq q3 (uring_source s)));
    cbn [set_sq set_ring ring sq]; try assumption; [|lia].
  rewrite Henter, Hn.
  destruct (Z.ltb_spec (to_uint (sqe_tail q - sq_khead q) + 2) 0) as [|_]; [lia|].
  cbn [fst snd env uring_source g_print emit kernel set_kernel open_fds heap
       g_strdup set_heap set_open_fds set_sq set_ring ring sq cq log].
  rewrite Hpre3, end_chain_snoc, unlink_close, Hpre2, <- !app_assoc.
  rewrite sq_prepared_length.
  split; [reflexivity|]. split; [reflexivity|]. split; [|split; reflexivity].
  unfold sq_prepared, sq_take, sq_publish. cbn [sqe_tail sq_khead sq_ktail].
  rewrite Z.sub_diag. reflexivity.
Qed.

(** X6.  With two free slots, a descriptor from [open] and a kernel that
    accepts, [submit_write_operation] returns [TRUE] and the kernel has
    received, behind whatever was still queued, the linked write, for the
    low 32 bits of the length, followed by the close of the same
    descriptor; the submission ring is empty again.  The function itself
    closes nothing and frees nothing, it prints its three lines, and the
    copy of the data stays allocated for the write in flight. *)
Theorem submit_two_slots r os length_ s :
  let q := sq (ring (uring_source s)) in
  sq_wf q -> sq_flushed q -> 2 <= sq_free q ->
  0 <= open_ret os -> enter_err os = None ->
  let s' := snd (submit_write_operation r os length_ s) in
  fst (submit_write_operation r os length_ s) = TRUE /\
  kernel (env s') =
    kernel (env s) ++ sq_prepared q
      ++ [write_sqe (open_ret os) (strdup_ret os) length_;
          close_sqe r (open_ret os)] /\
  len (write_sqe (open_ret os) (strdup_ret os) length_) = length_ mod 2 ^ 32 /\
  sq_prepared (sq (ring (uring_source s'))) = [] /\
  log (env s') =
    log (env s)
      ++ [EvPrint (MsgOpening (open_ret os)); EvPrint (MsgPrepared length_);
          EvPrint (MsgSubmitted (Z.of_nat (length (sq_prepared q)) + 2))] /\
  heap (env s') = {[strdup_ret os]} ∪ heap (env s).
Proof.
  intros q Hwf Hfl Hfree Hopen Henter s'.
  destruct (submit_two_slots_spec r os length_ s Hwf Hfl Hfree Hopen Henter)
    as (H1 & H2 & H3 & H4 & H5).
  split; [exact H1|]. split; [exact H2|]. split; [reflexivity|].
  split; [exact H3|]. split; [exact H4|exact H5].
Qed.

Lemma booted_sq_wf r : sq_wf (sq (ring (uring_source (booted r)))).
Proof.
  destruct r; (constructor;
    [ exists 3; split; [lia | reflexivity]
    | reflexivity | reflexivity
    | vm_compute; split; congruence
    | vm_compute; split; congruence
    | vm_compute; congruence ]).
Qed.

Lemma booted_sq_flushed r : sq_flushed (sq (ring (uring_source (booted r)))).
Proof.
  destruct r; (constructor; [vm_compute; split; congruence | reflexivity..
                            | vm_compute; congruence]).
Qed.

Lemma submit_two_slots_witness :
  kernel (env (submitted Revised)) =
    [write_sqe 4 heap_buffer 57; close_sqe Revised 4] /\
  sq_prepared (sq (ring (uring_source (submitted Revised)))) = [].
Proof.
  destruct (submit_two_slots Revised os_ok 57 (booted Revised))
    as (_ & Hk & _ & Hp & _).
  - apply booted_sq_wf.
  - apply booted_sq_flushed.
  - vm_compute. congruence.
  - vm_compute. congruence.
  - reflexivity.
  - split; [exact Hk | exact Hp].
Defined.

Lemma sq_publish_wf q :
  sq_wf q -> sq_wf (sq_publish q) /\ sq_flushed (sq_publish q).
Proof.
  intros [(k & Hk & Hpow) Hmask Hlen Hh Ht Hroom].
  assert (Hpos : 0 < 2 ^ k) by (apply Z.pow_pos_nonneg; lia).
  split; constructor; cbn; try assumption; try reflexivity; try lia.
  exists k. auto.
Qed.

Lemma sq_take_wf q :
  sq_wf q ->
  sq_wf (sq_take (sq_publish q)) /\ sq_flushed (sq_take (sq_publish q)) /\
  sq_free (sq_take (sq_publish q)) = sq_ring_entries q.
Proof.
  intros [(k & Hk & Hpow) Hmask Hlen Hh Ht Hroom].
  assert (Hpos : 0 < 2 ^ k) by (apply Z.pow_pos_nonneg; lia).
  assert (H0 : to_uint (sqe_tail q - sqe_tail q) = 0)
    by (rewrite Z.sub_diag; reflexivity).
  split; [|split]; [constructor|constructor|]; unfold sq_free; cbn;
    rewrite ?H0; try assumption; try reflexivity; try lia.
  exists k. auto.
Qed.

(** X7.  When [io_uring_submit] is refused, [submit_write_operation]
    returns [FALSE] after closing the descriptor and freeing its copy of
    the data, but the two entries it had queued stay published in the
    submission ring: the ring goes on offering the kernel a write, of the
    low 32 bits of the length, from the buffer that has just been freed to
    the descriptor that has just been closed. *)
Theorem submit_refused_leaves_entries r os length_ s e :
  let q := sq (ring (uring_source s)) in
  sq_wf q -> sq_flushed q -> 2 <= sq_free q ->
  0 <= open_ret os -> enter_err os = Some e -> 0 < e ->
  let s' := snd (submit_write_operation r os length_ s) in
  fst (submit_write_operation r os length_ s) = FALSE /\
  Kernel.sq_pending (sq (ring (uring_source s'))) =
    sq_prepared q
      ++ [write_sqe (open_ret os) (strdup_ret os) length_;
          close_sqe r (open_ret os)] /\
  len (write_sqe (open_ret os) (strdup_ret os) length_) = length_ mod 2 ^ 32 /\
  (strdup_ret os ∉ heap (env s')) /\
  (open_ret os ∉ open_fds (env s')) /\
  kernel (env s') = kernel (env s).
Proof.
  intros q Hwf [Hkt Hpub Hhead _] Hfree Hopen Henter He s'.
  unfold s', submit_write_operation. fold q.
  destruct (Z.ltb_spec (open_ret os) 0) as [|_]; [lia|].
  destruct (sq_push q Hwf) as (i & q1 & Hg1 & Hp1); [lia|].
  rewrite Hg1, write_entry.
  specialize (Hp1 (write_sqe (open_ret os) (strdup_ret os) length_)).
  cbn zeta in Hp1. set (q2 := set_sqe i _ q1) in *.
  destruct Hp1 as (Hpre2 & Hwf2 & Hfree2 & Hkh2 & _ & Hsh2 & Hent2 & Hst2).
  destruct (sq_push q2 Hwf2) as (j & q2' & Hg2 & Hp2); [lia|].
  rewrite Hg2, close_entry.
  specialize (Hp2 (close_sqe r (open_ret os))).
  cbn zeta in Hp2. set (q3 := set_sqe j _ q2') in *.
  destruct Hp2 as (Hpre3 & Hwf3 & Hfree3 & Hkh3 & _ & Hsh3 & Hent3 & Hst3).
  assert (Hn : to_uint (sqe_tail q3 - sq_khead q3) =
               to_uint (sqe_tail q - sq_khead q) + 2).
  { unfold sq_free in Hfree3, Hfree2. lia. }
  pose proof (to_uint_range (sqe_tail q - sq_khead q)) as Hr.
  assert (Hdirty : sqe_head q3 <> sqe_tail q3).
  { rewrite Hsh3, Hsh2, Hhead, <- Hpub. intros Heq.
    rewrite <- Heq, Hkh3, Hkh2 in Hn. lia. }
  rewrite (io_uring_submit_spec (enter_err os) (set_sq q3 (uring_source s)));
    cbn [set_sq set_ring ring sq]; try assumption; [|lia].
  rewrite Henter.
  destruct (Z.ltb_spec (- e) 0) as [_|]; [|lia].
  cbn [fst snd env uring_source set_sq set_ring ring sq].
  rewrite sq_pending_prepared by reflexivity.
  rewrite sq_prepared_publish, Hpre3, Hpre2, <- app_assoc.
  split; [reflexivity|]. split; [reflexivity|]. split; [reflexivity|].
  cbn. rewrite !elem_of_difference, !elem_of_singleton. tauto.
Qed.

Lemma submit_refused_leaves_entries_witness :
  fst (submit_write_operation Revised os_busy 57 (booted Revised)) = FALSE /\
  Kernel.sq_pending
    (sq (ring (uring_source
                 (snd (submit_write_operation Revised os_busy 57 (booted Revised))))))
  = [write_sqe 4 heap_buffer 57; close_sqe Revised 4].
Proof.
  destruct (submit_refused_leaves_entries Revised os_busy 57 (booted Revised) 16)
    as (Hf & Hp & _).
  - apply booted_sq_wf.
  - apply booted_sq_flushed.
  - vm_compute. congruence.
  - vm_compute. congruence.
  - reflexivity.
  - lia.
  - split; [exact Hf | exact Hp].
Defined.

(** The kernel opens nothing: the descriptors open after its work were
    open before. *)
Lemma step_fds wr ops i st fds ev st' fds' :
  Kernel.step wr ops i (st, fds) = Some (ev, (st', fds')) -> fds' ⊆ fds.
Proof.
  unfold Kernel.step. destruct (ops !! i) as [e|]; [|discriminate].
  destruct (Kernel.startable ops st i); [|discriminate].
  destruct (Kernel.severed ops st i).
  - intros H. injection H as _ _ <-. reflexivity.
  - unfold Kernel.exec_op.
    destruct (opcode e =? IORING_OP_WRITE);
      [|destruct (opcode e =? IORING_OP_CLOSE)];
      destruct (bool_decide (fd e ∈ fds));
      intros H; injection H as _ _ <-; try reflexivity.
    intros x Hx. apply elem_of_difference in Hx. tauto.
Qed.

Lemma trace_fds wr ops : forall sched st fds,
  snd (snd (Kernel.trace wr ops sched (st, fds))) ⊆ fds.
Proof.
  induction sched as [|i sched IH]; intros st fds; [reflexivity|].
  cbn [Kernel.trace].
  destruct (Kernel.step wr ops i (st, fds)) as [[ev [st' fds']]|] eqn:Hs;
    [|apply IH].
  specialize (IH st' fds').
  destruct (Kernel.trace wr ops sched (st', fds')) as [evs k2].
  cbn [snd] in *. etransitivity; [exact IH|].
  eapply step_fds. exact Hs.
Qed.

Lemma complete_fds wr sched s :
  open_fds (env (Kernel.complete wr sched s)) ⊆ open_fds (env s).
Proof.
  unfold Kernel.complete.
  pose proof (trace_fds wr (kernel (env s)) (sched ++ seq 0 (length (kernel (env s))))
                (replicate (length (kernel (env s))) Kernel.Pending)
                (open_fds (env s))) as H.
  destruct (Kernel.trace _ _ _ _) as [evs [st fds']]. exact H.
Qed.

(** X8.  With a single free slot, only the write is queued and handed to
    the kernel, where it ends its chain; the submission returns [TRUE].
    The first revision neither closes the descriptor nor queues a close for
    it.  The second closes the descriptor at once, before the write has
    been submitted: the kernel receives a write to a descriptor the
    program has already closed, and whatever the kernel does the
    descriptor is not open afterwards. *)
Theorem submit_one_slot r os length_ s :
  let q := sq (ring (uring_source s)) in
  sq_wf q -> sq_flushed q -> sq_free q = 1 ->
  0 <= open_ret os -> enter_err os = None ->
  let s' := snd (submit_write_operation r os length_ s) in
  fst (submit_write_operation r os length_ s) = TRUE /\
  kernel (env s') =
    kernel (env s) ++ sq_prepared q
      ++ [Kernel.unlink (write_sqe (open_ret os) (strdup_ret os) length_)] /\
  len (Kernel.unlink (write_sqe (open_ret os) (strdup_ret os) length_))
    = length_ mod 2 ^ 32 /\
  log (env s') =
    log (env s)
      ++ EvPrint (MsgOpening (open_ret os))
      :: match r with
         | Original => []
         | Revised => [EvPrint MsgCloseFallback; EvClose (open_ret os)]
         end
      ++ [EvPrint (MsgPrepared length_);
          EvPrint (MsgSubmitted (Z.of_nat (length (sq_prepared q)) + 1))] /\
  (r = Revised -> forall wr sched,
     open_ret os ∉ open_fds (env (Kernel.complete wr sched s'))).
Proof.
  intros q Hwf [Hkt Hpub Hhead _] Hfree Hopen Henter s'.
  unfold s', submit_write_operation. fold q.
  destruct (Z.ltb_spec (open_ret os) 0) as [|_]; [lia|].
  destruct (sq_push q Hwf) as (i & q1 & Hg1 & Hp1); [lia|].
  rewrite Hg1, write_entry.
  specialize (Hp1 (write_sqe (open_ret os) (strdup_ret os) length_)).
  cbn zeta in Hp1. set (q2 := set_sqe i _ q1) in *.
  destruct Hp1 as (Hpre2 & Hwf2 & Hfree2 & Hkh2 & _ & Hsh2 & Hent2 & Hst2).
  rewrite (get_sqe_none q2 Hwf2) by lia.
  assert (Hn : to_uint (sqe_tail q2 - sq_khead q2) =
               to_uint (sqe_tail q - sq_khead q) + 1).
  { unfold sq_free in Hfree2. lia. }
  pose proof (to_uint_range (sqe_tail q - sq_khead q)) as Hr.
  assert (Hdirty : sqe_head q2 <> sqe_tail q2).
  { rewrite Hsh2, Hhead, <- Hpub. intros Heq.
    rewrite <- Heq, Hkh2 in Hn. lia. }
  rewrite (io_uring_submit_spec (enter_err os) (set_sq q2 (uring_source s)));
    cbn [set_sq set_ring ring sq]; try assumption; [|lia].
  rewrite Henter, Hn.
  destruct (Z.ltb_spec (to_uint (sqe_tail q - sq_khead q) + 1) 0) as [|_]; [lia|].
  cbn [fst snd env uring_source]. rewrite Hpre2, end_chain_snoc.
  rewrite sq_prepared_length.
  split; [reflexivity|]. split; [destruct r; reflexivity|].
  split; [reflexivity|].
  split; [destruct r; cbn; rewrite <- !app_assoc; reflexivity|].
  intros -> wr sched Hin.
  apply complete_fds in Hin. cbn in Hin.
  rewrite elem_of_difference, elem_of_singleton in Hin. tauto.
Qed.

Lemma one_slot_left_wf r :
  sq_wf (sq (ring (uring_source (one_slot_left r)))) /\
  sq_flushed (sq (ring (uring_source (one_slot_left r)))).
Proof.
  destruct r; (split; constructor;
    first [ exists 3; split; [lia | reflexivity]
          | reflexivity
          | vm_compute; split; congruence
          | vm_compute; congruence ]).
Qed.

Lemma submit_one_slot_witness :
  sq_free (sq (ring (uring_source (one_slot_left Revised)))) = 1 /\
  fst (submit_write_operation Revised os_ok 57 (one_slot_left Revised)) = TRUE /\
  4 ∉ open_fds (env (Kernel.complete wr_ok []
                       (snd (submit_write_operation Revised os_ok 57
                               (one_slot_left Revised))))).
Proof.
  split; [reflexivity|].
  destruct (submit_one_slot Revised os_ok 57 (one_slot_left Revised))
    as (Hf & _ & _ & _ & Hc).
  - apply one_slot_left_wf.
  - apply one_slot_left_wf.
  - reflexivity.
  - vm_compute. congruence.
  - reflexivity.
  - split; [exact Hf | exact (Hc eq_refl wr_ok [])].
Defined.

(* ===================================================================== *)
(** ** The write and the close behind it *)
(* ===================================================================== *)

(** C3 (as amended).  [submit_write_operation] hands the kernel the write,
    marked with the link flag, directly followed by the close of the same
    descriptor.  However the kernel orders its work and whatever else it
    holds, the close is not begun until the write has completed: its
    completion comes after the write's.  The close is executed exactly when
    the write was executed and transferred all its bytes; if the write
    failed, fell short or was cancelled itself, the close is not attempted:
    it completes with [-ECANCELED] and the descriptors stay as they are. *)
Theorem linked_close_after_write r os length_ s wr sched st fds :
  let q := sq (ring (uring_source s)) in
  sq_wf q -> sq_flushed q -> 2 <= sq_free q ->
  0 <= open_ret os -> enter_err os = None ->
  let s1 := snd (submit_write_operation r os length_ s) in
  let W := write_sqe (open_ret os) (strdup_ret os) length_ in
  let C := close_sqe r (open_ret os) in
  let ops := kernel (env s1) in
  let k := length (kernel (env s) ++ sq_prepared q) in
  st !! k = Some Kernel.Pending -> st !! S k = Some Kernel.Pending ->
  ops !! k = Some W /\ ops !! S k = Some C /\ Kernel.linked W = true /\
  forall n ev2,
    fst (Kernel.trace wr ops sched (st, fds)) !! n = Some ev2 ->
    Kernel.kev_index ev2 = S k ->
    exists m ev1,
      (m < n)%nat /\
      fst (Kernel.trace wr ops sched (st, fds)) !! m = Some ev1 /\
      Kernel.kev_index ev1 = k /\
      (Kernel.kev_ran ev2 = true <->
         Kernel.kev_ran ev1 = true /\ to_uint length_ <= Kernel.kev_res ev1) /\
      (Kernel.kev_ran ev2 = false ->
         Kernel.kev_res ev2 = - ECANCELED /\
         Kernel.kev_after ev2 = Kernel.kev_before ev2) /\
      (Kernel.kev_ran ev2 = true ->
         (Kernel.kev_res ev2, Kernel.kev_after ev2)
         = Kernel.exec_op wr C (Kernel.kev_before ev2)).
Proof.
  intros q Hwf Hfl Hfree Hopen Henter s1 W C ops k Hk HSk.
  destruct (submit_two_slots_spec r os length_ s Hwf Hfl Hfree Hopen Henter)
    as (_ & Hops & _).
  fold q s1 W C in Hops. fold ops in Hops.
  assert (H1 : ops !! k = Some W).
  { rewrite Hops, app_assoc. apply list_lookup_middle. reflexivity. }
  assert (H2 : ops !! S k = Some C).
  { rewrite Hops, app_assoc.
    change (?l ++ [W; C]) with (l ++ [W] ++ [C]). rewrite app_assoc.
    apply list_lookup_middle. rewrite length_app. cbn. unfold k. lia. }
  split; [exact H1|]. split; [exact H2|]. split; [reflexivity|].
  intros n ev2 Hn Hidx.
  destruct (trace_linked_pair wr ops k W C H1 eq_refl H2 sched st fds Hk HSk
              n ev2 Hn Hidx)
    as (m & ev1 & Hm & Hl & Hi & Hran & _ & Hrun & Hcan).
  exists m, ev1. split; [exact Hm|]. split; [exact Hl|]. split; [exact Hi|].
  split; [|split; assumption].
  rewrite Hran, andb_true_iff, negb_true_iff.
  unfold Kernel.failed.
  change (opcode W =? IORING_OP_WRITE) with true.
  change (len W) with (to_uint length_). cbn [andb].
  pose proof (to_uint_range length_) as Hr.
  rewrite orb_false_iff, !Z.ltb_ge. intuition lia.
Qed.

Lemma linked_close_after_write_witness :
  let ops := kernel (env (submitted Revised)) in
  let tr := fst (Kernel.trace wr_nospace ops [1; 0; 1]%nat
                   ([Kernel.Pending; Kernel.Pending],
                    open_fds (env (submitted Revised)))) in
  ops = [write_sqe 4 heap_buffer 57; close_sqe Revised 4] /\
  exists ev1 ev2,
    tr = [ev1; ev2] /\
    Kernel.kev_res ev1 = -28 /\
    Kernel.kev_ran ev2 = false /\ Kernel.kev_res ev2 = - ECANCELED.
Proof.
  intros ops tr. split; [reflexivity|].
  destruct (linked_close_after_write Revised os_ok 57 (booted Revised)
              wr_nospace [1; 0; 1]%nat [Kernel.Pending; Kernel.Pending]
              (open_fds (env (submitted Revised)))
              (booted_sq_wf Revised) (booted_sq_flushed Revised))
    as (_ & _ & _ & Hall);
    [vm_compute; congruence | vm_compute; congruence | reflexivity
    | reflexivity | reflexivity |].
  assert (Htr : exists ev1 ev2, tr = [ev1; ev2] /\
            Kernel.kev_res ev1 = -28 /\ Kernel.kev_index ev2 = 1%nat /\
            Kernel.kev_ran ev2 = false).
  { do 2 eexists. split; [vm_compute; reflexivity|].
    split; [reflexivity|]. split; reflexivity. }
  destruct Htr as (ev1 & ev2 & Htr & Hres & Hidx & Hran).
  destruct (Hall 1%nat ev2) as (m & ev1' & _ & _ & _ & _ & Hcan & _).
  - change (tr !! 1%nat = Some ev2). rewrite Htr. reflexivity.
  - exact Hidx.
  - exists ev1, ev2. split; [exact Htr|]. split; [exact Hres|].
    split; [exact Hran|]. exact (proj1 (Hcan Hran)).
Defined.

(** The rings after any [submit_write_operation] on a flushed ring. *)
Lemma submit_ring_cases r os length_ s :
  let q := sq (ring (uring_source s)) in
  sq_wf q -> sq_flushed q ->
  let s' := snd (submit_write_operation r os length_ s) in
  cq (ring (uring_source s')) = cq (ring (uring_source s)) /\
  poll_fd (uring_source s') = poll_fd (uring_source s) /\
  (sq (ring (uring_source s')) = q \/
   exists qn, sq_wf qn /\
     (sq (ring (uring_source s')) = sq_publish qn \/
      sq (ring (uring_source s')) = sq_take (sq_publish qn))).
Proof.
  intros q Hwf [Hkt Hpub Hhead Hent] s'.
  unfold s', submit_write_operation. fold q.
  destruct (Z.ltb_spec (open_ret os) 0) as [|_]; [cbn; auto|].
  destruct (Z_le_gt_dec (sq_free q) 0) as [Hfull|Hfree].
  { rewrite (get_sqe_none q Hwf Hfull). cbn. auto. }
  destruct (sq_push q Hwf) as (i & q1 & Hg1 & Hp1); [lia|].
  rewrite Hg1, write_entry.
  specialize (Hp1 (write_sqe (open_ret os) (strdup_ret os) length_)).
  cbn zeta in Hp1. set (q2 := set_sqe i _ q1) in *.
  destruct Hp1 as (Hpre2 & Hwf2 & Hfree2 & Hkh2 & _ & Hsh2 & Hent2 & Hst2).
  pose proof (to_uint_range (sqe_tail q - sq_khead q)) as Hr.
  assert (Hn2 : to_uint (sqe_tail q2 - sq_khead q2) =
                to_uint (sqe_tail q - sq_khead q) + 1).
  { unfold sq_free in Hfree2. lia. }
  destruct (Z_le_gt_dec (sq_free q2) 0) as [Hfull2|Hfree2'].
  - rewrite (get_sqe_none q2 Hwf2 Hfull2).
    assert (Hdirty : sqe_head q2 <> sqe_tail q2).
    { rewrite Hsh2, Hhead, <- Hpub. intros Heq.
      rewrite <- Heq, Hkh2 in Hn2. lia. }
    rewrite (io_uring_submit_spec (enter_err os) (set_sq q2 (uring_source s)));
      cbn [set_sq set_ring ring sq]; try assumption; [|lia].
    destruct (enter_err os) as [e|];
      match goal with |- context [if ?b then _ else _] => destruct b end;
      cbn [snd uring_source set_sq set_ring ring sq cq poll_fd];
      (split; [reflexivity|]); (split; [reflexivity|]);
      right; exists q2; auto.
  - destruct (sq_push q2 Hwf2) as (j & q2' & Hg2 & Hp2); [lia|].
    rewrite Hg2, close_entry.
    specialize (Hp2 (close_sqe r (open_ret os))).
    cbn zeta in Hp2. set (q3 := set_sqe j _ q2') in *.
    destruct Hp2 as (Hpre3 & Hwf3 & Hfree3 & Hkh3 & _ & Hsh3 & Hent3 & Hst3).
    assert (Hn : to_uint (sqe_tail q3 - sq_khead q3) =
                 to_uint (sqe_tail q - sq_khead q) + 2).
    { unfold sq_free in Hfree3, Hfree2. lia. }
    assert (Hdirty : sqe_head q3 <> sqe_tail q3).
    { rewrite Hsh3, Hsh2, Hhead, <- Hpub. intros Heq.
      rewrite <- Heq, Hkh3, Hkh2 in Hn. lia. }
    rewrite (io_uring_submit_spec (enter_err os) (set_sq q3 (uring_source s)));
      cbn [set_sq set_ring ring sq]; try assumption; [|lia].
    destruct (enter_err os) as [e|];
      match goal with |- context [if ?b then _ else _] => destruct b end;
      cbn [snd uring_source set_sq set_ring ring sq cq poll_fd];
      (split; [reflexivity|]); (split; [reflexivity|]);
      right; exists q3; auto.
Qed.

(** X9.  [submit_write_operation] keeps the submission ring in order:
    started on a well-formed ring with everything published, it ends,
    whatever its outcome, on a well-formed ring with everything published;
    and it never touches the completion ring or the poll record. *)
Theorem submit_keeps_ring_flushed r os length_ s :
  let q := sq (ring (uring_source s)) in
  sq_wf q -> sq_flushed q ->
  let s' := snd (submit_write_operation r os length_ s) in
  sq_wf (sq (ring (uring_source s'))) /\
  sq_flushed (sq (ring (uring_source s'))) /\
  cq (ring (uring_source s')) = cq (ring (uring_source s)) /\
  poll_fd (uring_source s') = poll_fd (uring_source s).
Proof.
  intros q Hwf Hfl s'.
  destruct (submit_ring_cases r os length_ s Hwf Hfl)
    as (Hcq & Hpoll & [Hsame | (qn & Hwfn & [Hp | Ht])]);
    fold s' in Hcq, Hpoll |- *.
  - fold s' in Hsame. rewrite Hsame. auto.
  - fold s' in Hp. rewrite Hp.
    destruct (sq_publish_wf qn Hwfn). auto.
  - fold s' in Ht. rewrite Ht.
    destruct (sq_take_wf qn Hwfn) as (? & ? & _). auto.
Qed.

Lemma submit_keeps_ring_flushed_witness :
  sq_flushed (sq (ring (uring_source (submitted Revised)))).
Proof.
  apply (submit_keeps_ring_flushed Revised os_ok 57 (booted Revised)).
  - apply booted_sq_wf.
  - apply booted_sq_flushed.
Defined.

Lemma io_uring_submit_env err st :
  open_fds (env (snd (io_uring_submit err st))) = open_fds (env st) /\
  heap (env (snd (io_uring_submit err st))) = heap (env st).
Proof.
  unfold io_uring_submit.
  destruct (io_uring_flush_sq (sq (ring (uring_source st)))) as [n q].
  destruct (n =? 0); [split; reflexivity|].
  destruct err; split; reflexivity.
Qed.

(** X10.  A submission that reports failure leaves neither a descriptor
    nor a buffer behind: whichever step failed (the [open], the request for
    an entry, or the submission to the kernel), the set of open descriptors
    and the heap are what they were before the call. *)
Theorem submit_failure_releases r os length_ s :
  fst (submit_write_operation r os length_ s) = FALSE ->
  open_ret os ∉ open_fds (env s) ->
  strdup_ret os ∉ heap (env s) ->
  let s' := snd (submit_write_operation r os length_ s) in
  open_fds (env s') = open_fds (env s) /\ heap (env s') = heap (env s).
Proof.
  intros Hfail Hfd Hbuf s'. unfold s'. revert Hfail.
  unfold submit_write_operation.
  destruct (open_ret os <? 0); [intros _; split; reflexivity|].
  destruct (io_uring_get_sqe (sq (ring (uring_source s)))) as [[i|] q1].
  2: { intros _. cbn. split; now apply gset_add_remove. }
  match goal with
  | |- context [io_uring_get_sqe ?q2] =>
      destruct (io_uring_get_sqe q2) as [[j|] q']
  end.
  - match goal with
    | |- context [io_uring_submit ?e ?st] =>
        destruct (io_uring_submit_env e st) as (Hf & Hh);
        destruct (io_uring_submit e st) as [submitted s5]
    end.
    cbn [fst snd env] in *.
    destruct (submitted <? 0); [intros _|discriminate].
    cbn [fst snd env g_free close emit set_heap set_open_fds g_printerr
         open_fds heap].
    rewrite Hf, Hh. cbn.
    split; now apply gset_add_remove.
  - match goal with
    | |- context [io_uring_submit ?e ?st] =>
        destruct (io_uring_submit_env e st) as (Hf & Hh);
        destruct (io_uring_submit e st) as [submitted s5]
    end.
    cbn [fst snd env] in *.
    destruct (submitted <? 0); [intros _|discriminate].
    cbn [fst snd env g_free close emit set_heap set_open_fds g_printerr
         open_fds heap].
    rewrite Hf, Hh. destruct r; cbn;
      rewrite ?gset_remove_twice; split; now apply gset_add_remove.
Qed.

Lemma submit_failure_releases_witness :
  open_fds (env (snd (submit_write_operation Revised os_busy 57 (booted Revised))))
  = open_fds (env (booted Revised)).
Proof.
  apply (submit_failure_releases Revised os_busy 57 (booted Revised)).
  - reflexivity.
  - apply (proj1 (bool_decide_eq_false _)). vm_compute. reflexivity.
  - apply (proj1 (bool_decide_eq_false _)). vm_compute. reflexivity.
Defined.

(* ===================================================================== *)
(** ** Callbacks that count their calls *)
(* ===================================================================== *)

Section Threshold.

Context {St : Type} (f : St -> bool * St) (cnt : St -> Z) (limit : Z)
        (side : St -> nat) (bump : nat -> nat).

Hypothesis cnt_step : forall s, cnt (snd (f s)) = to_gint (cnt s + 1).
Hypothesis ret_step : forall s, fst (f s) = negb (limit <=? cnt (snd (f s))).
Hypothesis side_keep : forall s, fst (f s) = true -> side (snd (f s)) = side s.
Hypothesis side_last :
  forall s, fst (f s) = false -> side (snd (f s)) = bump (side s).

(** A callback that counts up to [limit] is removed at the call that
    reaches it. *)
Lemma threshold_removed n : forall s fuel,
  cnt s + Z.of_nat (S n) = limit -> - 2 ^ 31 <= cnt s -> limit < 2 ^ 31 ->
  (S n <= fuel)%nat ->
  exists s',
    calls_until_removed fuel f s = Some (S n, s') /\
    cnt s' = limit /\ side s' = bump (side s).
Proof.
  induction n as [|n IH]; intros s fuel Hc Hlo Hhi Hfuel;
    (destruct fuel as [|fuel]; [lia|]); cbn [calls_until_removed];
    pose proof (cnt_step s) as Hs; pose proof (ret_step s) as Hr;
    pose proof (side_keep s) as Hk; pose proof (side_last s) as Hl;
    destruct (f s) as [b s1]; cbn [fst snd] in *;
    rewrite to_gint_small in Hs by lia; rewrite Hs in Hr.
  - destruct (Z.leb_spec limit (cnt s + 1)); [|lia]. cbn in Hr. subst b.
    exists s1. repeat split; [lia | auto].
  - destruct (Z.leb_spec limit (cnt s + 1)); [lia|]. cbn in Hr. subst b.
    destruct (IH s1 fuel) as (s' & Hcalls & Hcnt & Hside); try lia.
    rewrite Hcalls. exists s'. repeat split; [exact Hcnt|].
    rewrite Hside, Hk; reflexivity.
Qed.

(** Past its limit, it is removed at the first call. *)
Lemma threshold_removed_late s fuel :
  limit <= cnt s + 1 -> - 2 ^ 31 <= cnt s -> cnt s + 1 < 2 ^ 31 ->
  (1 <= fuel)%nat ->
  exists s', calls_until_removed fuel f s = Some (1%nat, s').
Proof.
  intros Hc Hlo Hhi Hfuel. destruct fuel as [|fuel]; [lia|].
  cbn [calls_until_removed].
  pose proof (cnt_step s) as Hs. pose proof (ret_step s) as Hr.
  destruct (f s) as [b s1]; cbn [fst snd] in *.
  rewrite to_gint_small in Hs by lia. rewrite Hs in Hr.
  destruct (Z.leb_spec limit (cnt s + 1)); [|lia]. cbn in Hr. subst b.
  eauto.
Qed.

End Threshold.

Module IdleExampleFacts.
Import IdleExample.

(** X11.  [idle_example.c]: [idle_function] is removed at the call that
    brings [idle_count] to 5 and [high_priority_idle] at the call that
    brings its count to 3, neither touching the loop; [process_work] is
    removed at the call that brings [work_items] to 8, and that call, and
    no earlier one, quits the main loop.  From a fresh start that is after
    5, 3 and 8 calls. *)
Theorem idle_callbacks_removed g (i h p : nat) :
  idle_count g + Z.of_nat (S i) = 5 -> - 2 ^ 31 <= idle_count g ->
  count g + Z.of_nat (S h) = 3 -> - 2 ^ 31 <= count g ->
  work_items g + Z.of_nat (S p) = 8 -> - 2 ^ 31 <= work_items g ->
  (exists g', calls_until_removed (S i) idle_function g = Some (S i, g') /\
              idle_count g' = 5 /\ loop_quits g' = loop_quits g) /\
  (exists g', calls_until_removed (S h) high_priority_idle g = Some (S h, g') /\
              count g' = 3 /\ loop_quits g' = loop_quits g) /\
  (exists g', calls_until_removed (S p) process_work g = Some (S p, g') /\
              work_items g' = 8 /\ loop_quits g' = S (loop_quits g)).
Proof.
  intros Hi Hil Hh Hhl Hp Hpl. split; [|split].
  - apply (threshold_removed idle_function idle_count 5 loop_quits (fun n => n));
      try lia; intros s; unfold idle_function; cbn zeta;
      destruct (5 <=? to_gint (idle_count s + 1)) eqn:E; cbn; rewrite ?E;
      unfold FALSE, TRUE; cbn [negb]; intros; congruence.
  - apply (threshold_removed high_priority_idle count 3 loop_quits (fun n => n));
      try lia; intros s; unfold high_priority_idle; cbn zeta;
      destruct (3 <=? to_gint (count s + 1)) eqn:E; cbn; rewrite ?E;
      unfold FALSE, TRUE; cbn [negb]; intros; congruence.
  - apply (threshold_removed process_work work_items 8 loop_quits S);
      try lia; intros s; unfold process_work; cbn zeta;
      destruct (8 <=? to_gint (work_items s + 1)) eqn:E; cbn; rewrite ?E;
      unfold FALSE, TRUE; cbn [negb]; intros; congruence.
Qed.

Lemma idle_callbacks_removed_witness :
  exists g', calls_until_removed 8 process_work start = Some (8%nat, g') /\
             work_items g' = 8 /\ loop_quits g' = 1%nat.
Proof.
  destruct (idle_callbacks_removed start 4 2 7) as (_ & _ & H);
    try reflexivity; try (vm_compute; congruence).
  exact H.
Defined.

End IdleExampleFacts.

Module SimpleLoopFacts.
Import SimpleLoop.

(** X12.  [simple_loop.c]: the timeout callback keeps its source until the
    call that brings [counter] to 5; that call quits the main loop, once,
    and removes the source. *)
Theorem timeout_callback_stops_at_five g (n : nat) :
  counter g + Z.of_nat (S n) = 5 -> - 2 ^ 31 <= counter g ->
  exists g',
    calls_until_removed (S n) timeout_callback g = Some (S n, g') /\
    counter g' = 5 /\ loop_quits g' = S (loop_quits g).
Proof.
  intros Hc Hlo.
  apply (threshold_removed timeout_callback counter 5 loop_quits S);
    try lia; intros s; unfold timeout_callback; cbn zeta;
    destruct (5 <=? to_gint (counter s + 1)) eqn:E; cbn; rewrite ?E;
      unfold FALSE, TRUE; cbn [negb]; intros; congruence.
Qed.

Lemma timeout_callback_stops_at_five_witness :
  exists g',
    calls_until_removed 5 timeout_callback (mk_globals 0 0) = Some (5%nat, g') /\
    counter g' = 5 /\ loop_quits g' = 1%nat.
Proof.
  apply (timeout_callback_stops_at_five (mk_globals 0 0) 4);
    [reflexivity | vm_compute; congruence].
Defined.

End SimpleLoopFacts.

(* ===================================================================== *)
(** ** Workers and the main thread *)
(* ===================================================================== *)

(** An integer stored in a pointer and read back. *)
Lemma gint_pointer_round_trip i :
  - 2 ^ 31 <= i < 2 ^ 31 -> GPOINTER_TO_INT (GINT_TO_POINTER i) = i.
Proof.
  intros Hi. unfold GPOINTER_TO_INT, GINT_TO_POINTER, to_gint, to_ptr.
  change (2 ^ 31) with 2147483648 in *. change (2 ^ 32) with 4294967296.
  change (2 ^ 64) with 18446744073709551616.
  Z.div_mod_to_equations. lia.
Qed.

Lemma interleaving_length {A} (l1 l2 l : list A) :
  interleaving l1 l2 l -> length l = (length l1 + length l2)%nat.
Proof. induction 1; cbn; lia. Qed.

Lemma interleaving_map {A B} (f : A -> B) (l1 l2 l : list A) :
  interleaving l1 l2 l -> interleaving (map f l1) (map f l2) (map f l).
Proof. induction 1; cbn; constructor; assumption. Qed.

Module ContextThreadingFacts.
Import ContextThreading.

Lemma worker_loop_ids n id :
  - 2 ^ 31 <= id < 2 ^ 31 ->
  map GPOINTER_TO_INT (worker_loop n id) = replicate n id.
Proof.
  intros Hid. induction n as [|n IH]; cbn; [reflexivity|].
  now rewrite IH, gint_pointer_round_trip.
Qed.

Lemma worker_loop_length n id : length (worker_loop n id) = n.
Proof. induction n; cbn; congruence. Qed.

(** What a run of idle callbacks does to the globals. *)
Lemma run_idles_spec l : forall g,
  0 <= work_counter g ->
  work_counter g + Z.of_nat (length l) < 2 ^ 31 ->
  let g' := run_idles l g in
  work_counter g' = work_counter g + Z.of_nat (length l) /\
  map fst (updates g') = map fst (updates g) ++ map GPOINTER_TO_INT l /\
  map snd (updates g') =
    map snd (updates g)
    ++ map (fun i => work_counter g + 1 + Z.of_nat i) (seq 0 (length l)) /\
  Z.of_nat (main_loop_quits g') =
    Z.of_nat (main_loop_quits g)
    + Z.max 0 (work_counter g + Z.of_nat (length l) - 9)
    - Z.max 0 (work_counter g - 9) /\
  timeout_count g' = timeout_count g /\ loop_quits g' = loop_quits g.
Proof.
  induction l as [|ud l IH]; intros g Hc Hlen; cbn [run_idles fold_left length].
  - cbn. rewrite !app_nil_r. repeat split; lia.
  - cbn [length] in Hlen.
    fold (run_idles l (snd (update_from_worker ud g))).
    set (g1 := snd (update_from_worker ud g)).
    assert (H1 : work_counter g1 = work_counter g + 1 /\
                 updates g1 = updates g
                   ++ [(GPOINTER_TO_INT ud, work_counter g + 1)] /\
                 main_loop_quits g1 =
                   (main_loop_quits g
                    + if (10 <=? work_counter g + 1)%Z then 1 else 0)%nat /\
                 timeout_count g1 = timeout_count g /\
                 loop_quits g1 = loop_quits g).
    { unfold g1, update_from_worker.
      rewrite to_gint_small by lia.
      destruct (10 <=? work_counter g + 1); cbn; repeat split; lia. }
    destruct H1 as (Hw & Hu & Hq & Ht & Hlq).
    destruct (IH g1) as (I1 & I2 & I3 & I4 & I5 & I6); try lia.
    cbn zeta. rewrite I1, I2, I3, I5, I6, Hw, Hu, Ht, Hlq.
    rewrite !map_app, <- !app_assoc. cbn [map fst snd app seq].
    split; [lia|]. split; [reflexivity|].
    split.
    { f_equal. f_equal; [lia|].
      rewrite <- (seq_shift (length l) 0), map_map.
      apply map_ext. intros i. lia. }
    split; [|split; reflexivity].
    rewrite I4, Hq, Hw.
    destruct (Z.leb_spec 10 (work_counter g + 1)); lia.
Qed.

(** X13.  [context_threading.c], first example: two workers each schedule
    five updates tagged with their id.  Whatever the order in which the
    main thread runs the ten callbacks, they print the worker ids as
    scheduled and the counter values 1 to 10, and [g_main_loop_quit] is
    called exactly once, by the last of them and by none before. *)
Theorem workers_updates id1 id2 scheduled :
  - 2 ^ 31 <= id1 < 2 ^ 31 -> - 2 ^ 31 <= id2 < 2 ^ 31 ->
  interleaving (worker_thread (GINT_TO_POINTER id1))
               (worker_thread (GINT_TO_POINTER id2)) scheduled ->
  let g := run_idles scheduled start in
  work_counter g = 10 /\
  main_loop_quits g = 1%nat /\
  interleaving (replicate 5 id1) (replicate 5 id2) (map fst (updates g)) /\
  map snd (updates g) = [1; 2; 3; 4; 5; 6; 7; 8; 9; 10] /\
  forall before after,
    scheduled = before ++ after -> after <> [] ->
    main_loop_quits (run_idles before start) = 0%nat.
Proof.
  intros H1 H2 Hint g.
  pose proof (interleaving_length _ _ _ Hint) as Hlen.
  unfold worker_thread in Hlen, Hint. rewrite !worker_loop_length in Hlen.
  rewrite !gint_pointer_round_trip in Hint by assumption.
  destruct (run_idles_spec scheduled start) as (I1 & I2 & I3 & I4 & _);
    [cbn; lia | rewrite Hlen; cbn; lia |].
  fold g in I1, I2, I3, I4. rewrite Hlen in I1, I3, I4. cbn in I1, I2, I3, I4.
  split; [exact I1|]. split; [lia|]. split.
  { rewrite I2. apply (interleaving_map GPOINTER_TO_INT) in Hint.
    now rewrite !worker_loop_ids in Hint by assumption. }
  split; [exact I3|].
  intros before after Heq Hne.
  assert (Hb : (length before < 10)%nat).
  { rewrite Heq, length_app in Hlen. destruct after; [contradiction|].
    cbn in Hlen. lia. }
  destruct (run_idles_spec before start) as (_ & _ & _ & J4 & _);
    [cbn; lia | cbn; lia |].
  cbn in J4. lia.
Qed.

Lemma workers_updates_witness :
  main_loop_quits
    (run_idles (worker_thread (GINT_TO_POINTER 1)
                ++ worker_thread (GINT_TO_POINTER 2)) start) = 1%nat.
Proof.
  apply (workers_updates 1 2); [lia | lia |].
  repeat first [apply interleaving_left | apply interleaving_right
               | apply interleaving_nil].
Defined.

(** X14.  [context_owner_thread]: the timeout attached to the thread's own
    context fires three times; the third call quits the thread's loop and
    removes the source, the first two keep it. *)
Theorem context_timeout_fires_three_times g (n : nat) :
  timeout_count g + Z.of_nat (S n) = 3 -> - 2 ^ 31 <= timeout_count g ->
  exists g',
    calls_until_removed (S n) callback g = Some (S n, g') /\
    timeout_count g' = 3 /\ loop_quits g' = S (loop_quits g).
Proof.
  intros Hc Hlo.
  apply (threshold_removed callback timeout_count 3 loop_quits S);
    try lia; intros s; unfold callback; cbn zeta;
    destruct (3 <=? to_gint (timeout_count s + 1)) eqn:E; cbn; rewrite ?E;
    unfold FALSE, TRUE; cbn [negb]; intros; congruence.
Qed.

Lemma context_timeout_fires_three_times_witness :
  exists g',
    calls_until_removed 3 callback start = Some (3%nat, g') /\
    timeout_count g' = 3 /\ loop_quits g' = 1%nat.
Proof.
  apply (context_timeout_fires_three_times start 2);
    [reflexivity | vm_compute; congruence].
Defined.

End ContextThreadingFacts.

(* ===================================================================== *)
(** ** The custom sources of lesson 6 *)
(* ===================================================================== *)

Module CustomSourceFacts.
Import CustomSource.

Lemma checks_until_ready_S fuel c :
  checks_until_ready (S fuel) c =
    if trigger_value c <=? to_gint (counter c + 1)
    then Some (1%nat, mk_counter (to_gint (counter c + 1)) (trigger_value c))
    else match checks_until_ready fuel
                 (mk_counter (to_gint (counter c + 1)) (trigger_value c)) with
         | Some (n, c2) => Some (S n, c2)
         | None => None
         end.
Proof. reflexivity. Qed.

Lemma checks_until_ready_spec n : forall c t,
  c + Z.of_nat (S n) = t -> - 2 ^ 31 <= c -> t < 2 ^ 31 ->
  checks_until_ready (S n) (mk_counter c t) = Some (S n, mk_counter t t).
Proof.
  induction n as [|n IH]; intros c t Hc Hlo Hhi;
    rewrite checks_until_ready_S; cbn [counter trigger_value];
    rewrite to_gint_small by lia.
  - destruct (Z.leb_spec t (c + 1)); [|lia]. do 2 f_equal. f_equal. lia.
  - destruct (Z.leb_spec t (c + 1)); [lia|].
    rewrite (IH (c + 1) t) by lia. reflexivity.
Qed.

(** X15.  The counter source of [custom_source.c] created with trigger
    value [t] is found ready by its [t]-th check and by none before it (by
    the first check when [t] is not positive); before that its prepare
    answers not ready unless [t] is not positive, afterwards it answers
    ready.  Neither hook ever sets a timeout. *)
Theorem counter_source_fires_at_trigger t :
  t < 2 ^ 31 ->
  let checks := Z.max 1 t in
  counter_prepare (counter_source_new t) = ((t <=? 0, -1), counter_source_new t) /\
  checks_until_ready (Z.to_nat checks) (counter_source_new t)
    = Some (Z.to_nat checks, mk_counter checks t) /\
  fst (fst (counter_prepare (mk_counter checks t))) = TRUE.
Proof.
  intros Ht checks. split; [reflexivity|]. split.
  - destruct (Z_lt_le_dec 0 t) as [Hpos|Hneg].
    + unfold checks. rewrite Z.max_r by lia.
      destruct (Z.to_nat t) as [|n] eqn:Hn; [lia|].
      unfold counter_source_new. apply checks_until_ready_spec; lia.
    + unfold checks. rewrite Z.max_l by lia.
      change (Z.to_nat 1) with 1%nat. cbn [checks_until_ready].
      unfold counter_check, counter_source_new. cbn [counter trigger_value].
      change (to_gint (0 + 1)) with 1.
      destruct (Z.leb_spec t 1); [reflexivity | lia].
  - unfold counter_prepare, checks. cbn [fst counter trigger_value].
    apply Z.leb_le. lia.
Qed.

Lemma counter_source_fires_at_trigger_witness :
  checks_until_ready 5 (counter_source_new 5) = Some (5%nat, mk_counter 5 5).
Proof.
  apply (counter_source_fires_at_trigger 5). vm_compute. reflexivity.
Defined.

Lemma calls_until_removed_S {St} fuel (f : St -> bool * St) s :
  calls_until_removed (S fuel) f s =
    if fst (f s) then
      match calls_until_removed fuel f (snd (f s)) with
      | Some (n, s2) => Some (S n, s2)
      | None => None
      end
    else Some (1%nat, snd (f s)).
Proof. cbn [calls_until_removed]. destruct (f s) as [[] s1]; reflexivity. Qed.

Lemma simple_dispatch_step m c n :
  simple_dispatch (Some simple_callback) (mk_simple c m, n) =
    (if m <=? to_gint (c + 1) then FALSE else to_gint (n + 1) <? 5,
     (mk_simple (to_gint (c + 1)) m, to_gint (n + 1))).
Proof.
  unfold simple_dispatch, simple_callback. cbn [call_count max_calls].
  destruct (m <=? to_gint (c + 1)); reflexivity.
Qed.

(** X16.  The always-ready source created with [max_calls] and given
    [simple_callback] is dispatched [min 5 (max 1 max_calls)] times: its
    dispatch answers [FALSE] as soon as the source has been dispatched
    [max_calls] times or the callback, which counts to 5, gives up,
    whichever comes first, and never before the first dispatch. *)
Theorem simple_source_dispatch_count m :
  let k := Z.min 5 (Z.max 1 m) in
  calls_until_removed 5 (simple_dispatch (Some simple_callback))
                      (simple_source_new m, 0)
  = Some (Z.to_nat k, (mk_simple k m, k)).
Proof.
  intros k.
  assert (Hcases : m <= 1 \/ m = 2 \/ m = 3 \/ m = 4 \/ 5 <= m) by lia.
  destruct Hcases as [H|[->|[->|[->|H]]]]; try reflexivity;
    unfold simple_source_new.
  - unfold k. rewrite Z.max_l, Z.min_r by lia.
    rewrite calls_until_removed_S, simple_dispatch_step. cbn [fst snd].
    change (to_gint (0 + 1)) with 1.
    destruct (Z.leb_spec m 1); [reflexivity | lia].
  - unfold k. rewrite Z.max_r, Z.min_l by lia.
    do 5 (rewrite calls_until_removed_S, simple_dispatch_step; cbn [fst snd];
          match goal with
          | |- context [to_gint (?a + 1)] =>
              let v := eval vm_compute in (to_gint (a + 1)) in
              change (to_gint (a + 1)) with v
          end;
          match goal with
          | |- context [?m' <=? ?v] =>
              destruct (Z.leb_spec m' v); [try lia|]
          end;
          try match goal with
          | |- context [?v <? 5] =>
              let b := eval vm_compute in (v <? 5) in
              change (v <? 5) with b
          end; cbn [FALSE]).
    all: reflexivity.
Qed.

End CustomSourceFacts.

(* ===================================================================== *)
(** ** Counter threads with and without the mutex *)
(* ===================================================================== *)

Lemma to_gint_succ x : to_gint (to_gint x + 1) = to_gint (x + 1).
Proof.
  unfold to_gint.
  replace ((x + 2 ^ 31) mod 2 ^ 32 - 2 ^ 31 + 1 + 2 ^ 31)
    with ((x + 2 ^ 31) mod 2 ^ 32 + 1) by lia.
  rewrite Zplus_mod_idemp_l. f_equal. f_equal. lia.
Qed.

Module MutexExampleFacts.
Import MutexExample.

Lemma owed_sum_insert ws : forall t w w',
  ws !! t = Some w ->
  (owed_sum (<[t := w']> ws) + owed w = owed_sum ws + owed w')%nat.
Proof.
  induction ws as [|x ws IH]; intros t w w' Hl; [discriminate|].
  destruct t as [|t].
  - change (Some x = Some w) in Hl. injection Hl as ->.
    change (<[0%nat := w']> (w :: ws)) with (w' :: ws).
    unfold owed_sum. cbn [foldr]. lia.
  - change (ws !! t = Some w) in Hl.
    change (<[S t := w']> (x :: ws)) with (x :: <[t := w']> ws).
    specialize (IH t w w' Hl). unfold owed_sum in *. cbn [foldr]. lia.
Qed.

Lemma inv_others total s t w t' w' :
  inv total s -> workers s !! t = Some w ->
  (at_ w <> AtLock \/ counter_mutex s = None) ->
  t' <> t -> workers s !! t' = Some w' -> at_ w' = AtLock.
Proof.
  intros Hinv Hw Hin Hne Hw'.
  destruct (at_ w') eqn:Hat; [reflexivity|..];
    (destruct (inv_inside _ _ Hinv t' w' Hw') as [Hmu _]; [congruence|];
     destruct Hin as [Hin|Hnone]; [|congruence];
     destruct (inv_inside _ _ Hinv t w Hw Hin) as [Hmu' _]; congruence).
Qed.

Lemma lookup_insert_cases (ws : list worker) t w0 t' w' :
  <[t := w0]> ws !! t' = Some w' ->
  (t' = t /\ w' = w0) \/ (t' <> t /\ ws !! t' = Some w').
Proof.
  intros H. destruct (decide (t' = t)) as [->|Hne].
  - left. split; [reflexivity|].
    destruct (decide (t < length ws)%nat) as [Hlt|Hge].
    + rewrite list_lookup_insert_eq in H by assumption. congruence.
    + rewrite list_insert_ge in H by lia.
      apply lookup_lt_Some in H. lia.
  - right. split; [assumption|].
    now rewrite list_lookup_insert_ne in H by congruence.
Qed.

Lemma protected_step_inv total t s :
  inv total s -> inv total (protected_increment_thread t s).
Proof.
  intros Hinv. unfold protected_increment_thread.
  destruct (workers s !! t) as [w|] eqn:Hw; [|exact Hinv].
  destruct (todo w) as [|k] eqn:Htodo; [exact Hinv|].
  pose proof (owed_sum_insert (workers s) t w) as Hsum.
  fold (owed_total s) in Hsum.
  destruct (at_ w) eqn:Hat.
  - (* g_mutex_lock *)
    destruct (counter_mutex s) as [holder|] eqn:Hmu; [exact Hinv|].
    specialize (Hsum (mk_worker AtRead (temp w) (todo w)) Hw).
    unfold owed in Hsum. cbn [at_ todo] in Hsum. rewrite Hat, ?Htodo in Hsum.
    constructor; cbn [workers counter_mutex shared_counter].
    + intros t' w' Hl' Hat'. apply lookup_insert_cases in Hl'.
      destruct Hl' as [[-> ->]|[Hne Hl']]; [cbn; split; [reflexivity|lia]|].
      rewrite (inv_others total s t w t' w' Hinv Hw (or_intror Hmu) Hne Hl') in Hat'.
      contradiction.
    + intros t' w' Hl' Hat'. apply lookup_insert_cases in Hl'.
      destruct Hl' as [[-> ->]|[Hne Hl']]; [discriminate|].
      rewrite (inv_others total s t w t' w' Hinv Hw (or_intror Hmu) Hne Hl') in Hat'.
      discriminate.
    + change (owed_total (mk_shared ?a ?b ?c ?ws)) with (owed_sum ws).
      replace (owed_sum (<[t:=_]> _)) with (owed_total s) by lia.
      apply (inv_sum _ _ Hinv).
    + change (owed_total (mk_shared ?a ?b ?c ?ws)) with (owed_sum ws).
      replace (owed_sum (<[t:=_]> _)) with (owed_total s) by lia.
      apply (inv_owed _ _ Hinv).
  - (* temp = shared_counter *)
    assert (Hin : at_ w <> AtLock) by congruence.
    destruct (inv_inside _ _ Hinv t w Hw Hin) as [Hmu _].
    specialize (Hsum (mk_worker AtWrite (shared_counter s) (todo w)) Hw).
    unfold owed in Hsum. cbn [at_ todo] in Hsum. rewrite Hat, ?Htodo in Hsum.
    constructor; unfold set_worker; cbn [workers counter_mutex shared_counter].
    + intros t' w' Hl' Hat'. apply lookup_insert_cases in Hl'.
      destruct Hl' as [[-> ->]|[Hne Hl']]; [cbn; split; [assumption|lia]|].
      rewrite (inv_others total s t w t' w' Hinv Hw (or_introl Hin) Hne Hl') in Hat'.
      contradiction.
    + intros t' w' Hl' Hat'. apply lookup_insert_cases in Hl'.
      destruct Hl' as [[-> ->]|[Hne Hl']]; [reflexivity|].
      rewrite (inv_others total s t w t' w' Hinv Hw (or_introl Hin) Hne Hl') in Hat'.
      discriminate.
    + change (owed_total (mk_shared ?a ?b ?c ?ws)) with (owed_sum ws).
      replace (owed_sum (<[t:=_]> _)) with (owed_total s) by lia.
      apply (inv_sum _ _ Hinv).
    + change (owed_total (mk_shared ?a ?b ?c ?ws)) with (owed_sum ws).
      replace (owed_sum (<[t:=_]> _)) with (owed_total s) by lia.
      apply (inv_owed _ _ Hinv).
  - (* shared_counter = temp + 1 *)
    assert (Hin : at_ w <> AtLock) by congruence.
    destruct (inv_inside _ _ Hinv t w Hw Hin) as [Hmu _].
    pose proof (inv_temp _ _ Hinv t w Hw Hat) as Htemp.
    specialize (Hsum (mk_worker AtUnlock (temp w) (todo w)) Hw).
    unfold owed in Hsum. cbn [at_ todo] in Hsum. rewrite Hat, Htodo in Hsum.
    cbn [pred] in Hsum.
    pose proof (inv_owed _ _ Hinv) as Howed.
    constructor; cbn [workers counter_mutex shared_counter].
    + intros t' w' Hl' Hat'. apply lookup_insert_cases in Hl'.
      destruct Hl' as [[-> ->]|[Hne Hl']]; [cbn; split; [assumption|lia]|].
      rewrite (inv_others total s t w t' w' Hinv Hw (or_introl Hin) Hne Hl') in Hat'.
      contradiction.
    + intros t' w' Hl' Hat'. apply lookup_insert_cases in Hl'.
      destruct Hl' as [[-> ->]|[Hne Hl']]; [discriminate|].
      rewrite (inv_others total s t w t' w' Hinv Hw (or_introl Hin) Hne Hl') in Hat'.
      discriminate.
    + change (owed_total (mk_shared ?a ?b ?c ?ws)) with (owed_sum ws).
      replace (owed_sum (<[t:=_]> _)) with (owed_total s - 1)%nat by lia.
      rewrite Htemp, (inv_sum _ _ Hinv), to_gint_succ. f_equal. lia.
    + change (owed_total (mk_shared ?a ?b ?c ?ws)) with (owed_sum ws).
      lia.
  - (* g_mutex_unlock *)
    assert (Hin : at_ w <> AtLock) by congruence.
    specialize (Hsum (mk_worker AtLock (temp w) k) Hw).
    unfold owed in Hsum. cbn [at_ todo] in Hsum. rewrite Hat, Htodo in Hsum.
    cbn [pred] in Hsum.
    constructor; cbn [workers counter_mutex shared_counter].
    + intros t' w' Hl' Hat'. apply lookup_insert_cases in Hl'.
      destruct Hl' as [[-> ->]|[Hne Hl']]; [cbn in Hat'; contradiction|].
      rewrite (inv_others total s t w t' w' Hinv Hw (or_introl Hin) Hne Hl') in Hat'.
      contradiction.
    + intros t' w' Hl' Hat'. apply lookup_insert_cases in Hl'.
      destruct Hl' as [[-> ->]|[Hne Hl']]; [discriminate|].
      rewrite (inv_others total s t w t' w' Hinv Hw (or_introl Hin) Hne Hl') in Hat'.
      discriminate.
    + change (owed_total (mk_shared ?a ?b ?c ?ws)) with (owed_sum ws).
      replace (owed_sum (<[t:=_]> _)) with (owed_total s) by lia.
      apply (inv_sum _ _ Hinv).
    + change (owed_total (mk_shared ?a ?b ?c ?ws)) with (owed_sum ws).
      replace (owed_sum (<[t:=_]> _)) with (owed_total s) by lia.
      apply (inv_owed _ _ Hinv).
Qed.

Lemma owed_sum_replicate n w : owed_sum (replicate n w) = (n * owed w)%nat.
Proof.
  induction n as [|n IH]; [reflexivity|].
  unfold owed_sum in *. cbn [replicate foldr]. rewrite IH. lia.
Qed.

Lemma start_inv threads iterations :
  inv (Z.of_nat (threads * iterations)) (start AtLock threads iterations).
Proof.
  constructor; unfold start, owed_total; cbn [workers counter_mutex shared_counter].
  - intros t w Hl Hat. apply lookup_replicate in Hl as [-> _]. now contradiction Hat.
  - intros t w Hl Hat. apply lookup_replicate in Hl as [-> _]. discriminate.
  - rewrite owed_sum_replicate. unfold owed. cbn [at_ todo].
    rewrite Z.sub_diag. reflexivity.
  - rewrite owed_sum_replicate. unfold owed. cbn [at_ todo]. lia.
Qed.

Lemma run_inv total schedule : forall s,
  inv total s -> inv total (run protected_increment_thread schedule s).
Proof.
  induction schedule as [|t schedule IH]; intros s Hinv; [exact Hinv|].
  apply IH, protected_step_inv, Hinv.
Qed.

Lemma finished_owed ws :
  forallb (fun w => Nat.eqb (todo w) 0) ws = true -> owed_sum ws = 0%nat.
Proof.
  induction ws as [|w ws IH]; [reflexivity|].
  cbn [forallb]. intros H. apply andb_prop in H as [Hw Hws].
  apply Nat.eqb_eq in Hw. unfold owed_sum in *. cbn [foldr].
  rewrite (IH Hws). unfold owed. rewrite Hw. now destruct (at_ w).
Qed.

(** X17 ([protected_increment_thread], [main]): however the scheduler
    interleaves the statements of the threads, once every thread has done
    its turns [shared_counter] is the number of threads times the number
    of turns, as a gint. *)
Theorem protected_counts_every_increment threads iterations schedule :
  let s := run protected_increment_thread schedule
               (start AtLock threads iterations) in
  finished s = true ->
  shared_counter s = to_gint (Z.of_nat (threads * iterations)).
Proof.
  intros s Hfin.
  pose proof (run_inv _ schedule _ (start_inv threads iterations)) as Hinv.
  fold s in Hinv. rewrite (inv_sum _ _ Hinv).
  unfold owed_total. rewrite (finished_owed _ Hfin). f_equal. lia.
Qed.

Lemma protected_counts_every_increment_witness :
  let s := run protected_increment_thread
               [0; 1; 0; 1; 0; 0; 1; 1; 1; 1; 1; 0; 1; 0; 1; 1; 0; 0; 0; 0]%nat
               (start AtLock 2 2) in
  finished s = true /\ shared_counter s = 4.
Proof.
  split; [reflexivity|].
  apply (protected_counts_every_increment 2 2
           [0; 1; 0; 1; 0; 0; 1; 1; 1; 1; 1; 0; 1; 0; 1; 1; 0; 0; 0; 0]%nat).
  reflexivity.
Defined.

(** X18 ([protected_increment_thread]): at every moment of every
    schedule at most one thread is between [g_mutex_lock] and
    [g_mutex_unlock], and it is the one that holds [counter_mutex]. *)
Theorem protected_mutual_exclusion threads iterations schedule t1 w1 t2 w2 :
  let s := run protected_increment_thread schedule
               (start AtLock threads iterations) in
  workers s !! t1 = Some w1 -> at_ w1 <> AtLock ->
  workers s !! t2 = Some w2 -> at_ w2 <> AtLock ->
  t1 = t2 /\ counter_mutex s = Some t1.
Proof.
  intros s H1 Hat1 H2 Hat2.
  pose proof (run_inv _ schedule _ (start_inv threads iterations)) as Hinv.
  fold s in Hinv.
  destruct (inv_inside _ _ Hinv t1 w1 H1 Hat1) as [Hm1 _].
  destruct (inv_inside _ _ Hinv t2 w2 H2 Hat2) as [Hm2 _].
  split; [congruence|assumption].
Qed.

Lemma protected_mutual_exclusion_witness :
  let s := run protected_increment_thread [1; 0; 1; 0]%nat (start AtLock 2 2) in
  workers s !! 1%nat = Some (mk_worker AtWrite 0 2) /\
  counter_mutex s = Some 1%nat.
Proof.
  split; [reflexivity|].
  apply (protected_mutual_exclusion 2 2 [1; 0; 1; 0]%nat
           1%nat (mk_worker AtWrite 0 2) 1%nat (mk_worker AtWrite 0 2));
    [reflexivity|discriminate|reflexivity|discriminate].
Defined.

Lemma lockstep_run k : forall sc c0 mu a b,
  let s := run unprotected_increment_thread (lockstep k)
             (mk_shared sc (to_gint c0) mu
                [mk_worker AtRead a k; mk_worker AtRead b k]) in
  finished s = true /\ unprotected_counter s = to_gint (c0 + Z.of_nat k).
Proof.
  induction k as [|k IH]; intros sc c0 mu a b.
  - cbn. split; [reflexivity|]. f_equal. lia.
  - cbn zeta. cbn [lockstep]. unfold run. rewrite fold_left_app.
    change (fold_left _ [0; 1; 0; 1]%nat _)
      with (mk_shared sc (to_gint (to_gint c0 + 1)) mu
              [mk_worker AtRead (to_gint c0) k; mk_worker AtRead (to_gint c0) k]).
    rewrite to_gint_succ.
    destruct (IH sc (c0 + 1) mu (to_gint c0) (to_gint c0)) as [Hf Hc].
    split; [exact Hf|]. unfold run in Hc. rewrite Hc. f_equal. lia.
Qed.

(** X19 ([unprotected_increment_thread]): two threads without the mutex
    that take turns statement by statement both read the counter before
    either writes it, so after [k] turns each the counter is [k], not
    [2 * k]. *)
Theorem unprotected_lockstep_loses_updates k :
  let s := run unprotected_increment_thread (lockstep k) (start AtRead 2 k) in
  finished s = true /\ unprotected_counter s = to_gint (Z.of_nat k).
Proof.
  exact (lockstep_run k 0 0 None 0 0).
Qed.

End MutexExampleFacts.

(* ===================================================================== *)
(** ** The life of a ring source *)
(* ===================================================================== *)

Lemma ring_init_shape rfd :
  cq_wf (cq (ring_init 8 rfd)) /\ sq_wf (sq (ring_init 8 rfd)) /\
  sq_free (sq (ring_init 8 rfd)) = 8 /\
  io_uring_cq_ready (cq (ring_init 8 rfd)) = 0.
Proof.
  split; [|split; [|split; reflexivity]].
  - constructor;
      [ exists 4; split; [lia | reflexivity]
      | reflexivity | reflexivity
      | vm_compute; split; congruence
      | vm_compute; split; congruence
      | vm_compute; congruence ].
  - constructor;
      [ exists 3; split; [lia | reflexivity]
      | reflexivity | reflexivity
      | vm_compute; split; congruence
      | vm_compute; split; congruence
      | vm_compute; congruence ].
Qed.

(** X20.  A source made by [io_uring_source_new] on a ring that could be
    initialised is a new object with one reference, polls the ring's
    descriptor for input, and is not ready; its rings are well formed, with
    eight free submission slots and no completion.  Taking and dropping a
    second reference changes nothing, and dropping the last one finalizes
    the source once: the ring's descriptor is closed again and the object
    is gone, so that the process holds what it held before the source was
    made. *)
Theorem source_new_then_released init_ret rfd w :
  0 <= init_ret -> rfd ∉ open_fds w ->
  exists u w1,
    io_uring_source_new init_ret rfd w = (Some u, w1) /\
    sources w !! source u = None /\
    sources w1 !! source u = Some 1%nat /\
    poll_fd u = mk_pollfd rfd G_IO_IN 0 /\
    fst (io_uring_source_check (mk_state u w1)) = FALSE /\
    cq_wf (cq (ring u)) /\ sq_wf (sq (ring u)) /\
    sq_free (sq (ring u)) = 8 /\ io_uring_cq_ready (cq (ring u)) = 0 /\
    g_source_unref u (g_source_ref u w1) = w1 /\
    open_fds (g_source_unref u w1) = open_fds w /\
    heap (g_source_unref u w1) = heap w /\
    sources (g_source_unref u w1) = sources w /\
    log (g_source_unref u w1) =
      log w ++ [EvPrint MsgInitOk; EvPrint MsgFinalizing; EvQueueExit rfd].
Proof.
  intros Hinit Hrfd.
  unfold io_uring_source_new, g_source_new.
  destruct (init_ret <? 0) eqn:Hneg; [apply Z.ltb_lt in Hneg; lia|].
  pose proof (fresh_source_not_live w) as Hfresh.
  set (id := fresh_source w) in *.
  destruct (ring_init_shape rfd) as (Hcq & Hsq & Hfree & Hready).
  eexists _, _. split; [reflexivity|].
  cbn [source ring poll_fd sq cq].
  split; [exact Hfresh|].
  split; [apply lookup_insert_eq|].
  split; [reflexivity|].
  split; [reflexivity|].
  split; [exact Hcq|]. split; [exact Hsq|].
  split; [exact Hfree|]. split; [exact Hready|].
  unfold g_source_ref, g_source_unref, g_print, emit, set_open_fds, set_sources.
  cbn [source sources open_fds heap kernel completion_state log].
  rewrite !lookup_insert_eq.
  cbn [sources open_fds heap kernel completion_state log].
  rewrite !lookup_insert_eq, !insert_insert_eq.
  split; [reflexivity|].
  unfold io_uring_source_finalize, io_uring_queue_exit, g_print, emit, set_open_fds.
  cbn [ring ring_fd ring_init sources open_fds heap kernel completion_state log].
  split; [apply gset_add_remove, Hrfd|].
  split; [reflexivity|].
  split; [apply delete_insert_id, Hfresh|].
  rewrite <- !app_assoc. reflexivity.
Qed.

Lemma source_new_then_released_witness :
  exists u w1,
    io_uring_source_new 0 3 initial_world = (Some u, w1) /\
    open_fds (g_source_unref u w1) = open_fds initial_world.
Proof.
  assert (H3 : 3 ∉ open_fds initial_world).
  { apply (proj1 (bool_decide_eq_false _)). vm_compute. reflexivity. }
  destruct (source_new_then_released 0 3 initial_world (Z.le_refl 0) H3)
    as (u & w1 & Hnew & _ & _ & _ & _ & _ & _ & _ & _ & _ & Hfds & _).
  exists u, w1. split; assumption.
Defined.
